(** * DLT stream framing and relay: a shallow embedding

    The development follows the two Python programs of the repository:

    - [examples/dlt_hex_viewer.py]: [read_dlt_packet], the reader that cuts a
      TCP byte stream into DLT packets using the length field of the standard
      header, and the loop of [main] that calls it;
    - [examples/dlt_websocket_bridge.py]: [read_from_dlt], the task that
      connects to the daemon and feeds a queue, and [broadcast_messages], the
      task that drains the queue towards the registered websocket clients.

    Sockets, the asyncio queue and the client set are modelled by explicit
    state; what the environment decides (how the bytes arrive, which send
    fails, when a client joins) is a script given to the model. *)

From stdpp Require Import base decidable list gmap.
From Stdlib Require Import ZArith Lia.
From Stdlib.Strings Require Import Byte Ascii.
From Equations Require Import Equations.

Open Scope Z_scope.

(** Python [bytes] / [bytearray] values. *)
Abbreviation bytes := (list byte).

#[global] Instance byte_eq_decision : EqDecision byte := Byte.byte_eq_dec.

Definition byte_to_Z (b : byte) : Z := Z.of_N (Byte.to_N b).

(** [len(x)] as a Python integer. *)
Definition len {A} (l : list A) : Z := Z.of_nat (length l).

(** [x[i:j]] for [0 <= i <= j]. *)
Definition slice {A} (i j : nat) (l : list A) : list A := take (j - i) (drop i l).

(** ** Byte streams

    Both programs pull bytes from a TCP stream through a call that returns at
    most [n] bytes: [sock.recv(n)] in the viewer, [reader.read(n)] in the
    bridge.  The stream is the script of what the successive calls find: a run
    of bytes that has arrived, or a fault that makes the call raise.  The empty
    script is a stream closed by the peer, where the call returns [b'']. *)

(** The outcome of a Python call: a value or a raised exception. *)
Inductive outcome (E A : Type) :=
| Return (v : A)
| Raise (e : E).
Arguments Return {E A} v.
Arguments Raise {E A} e.

Inductive arrival (E : Type) :=
| Data (chunk : bytes)
| Fault (e : E).
Arguments Data {E} chunk.
Arguments Fault {E} e.

Abbreviation stream E := (list (arrival E)).

(** At most [n] bytes of what has arrived; what does not fit stays for the
    next call. *)
Definition read_upto {E} (n : Z) (s : stream E) : outcome E bytes * stream E :=
  match s with
  | [] => (Return [], [])
  | Fault e :: rest => (Raise e, rest)
  | Data chunk :: rest =>
      if decide (len chunk <= n) then (Return chunk, rest)
      else (Return (take (Z.to_nat n) chunk), Data (drop (Z.to_nat n) chunk) :: rest)
  end.

(** What is left to consume on a stream: every arrival and every byte. *)
Fixpoint weight {E} (s : stream E) : nat :=
  match s with
  | [] => 0
  | Data chunk :: rest => S (length chunk + weight rest)
  | Fault _ :: rest => S (weight rest)
  end.

(** A value together with the equation that names it, so that a loop body
    can remember which call produced the value it branches on. *)
Definition inspect {A} (a : A) : {b : A | a = b} := exist _ a eq_refl.

Lemma read_upto_weight_le {E} (n : Z) (s : stream E) :
  (weight (read_upto n s).2 <= weight s)%nat.
Proof.
  destruct s as [|[chunk|e] rest]; simpl; [lia| |lia].
  case_decide; simpl; [lia|]. rewrite length_drop. lia.
Qed.

Lemma read_upto_weight_lt {E} (n : Z) (s : stream E) :
  0 < n -> s <> [] -> (weight (read_upto n s).2 < weight s)%nat.
Proof.
  intros Hn Hs. destruct s as [|[chunk|e] rest]; simpl; [done| |lia].
  case_decide; simpl; [lia|]. rewrite length_drop. unfold len in *. lia.
Qed.

(** * The hex viewer: [read_dlt_packet] and its caller *)

Module HexViewer.

(** Exceptions that reach [read_dlt_packet] and [main]: [socket.timeout]
    (the socket has a 5 second timeout), any other exception of [recv], and
    [struct.error] of [struct.unpack]. *)
Inductive exn := SocketTimeout | OtherError | StructError.

Abbreviation socket := (stream exn).

(** [sock.recv(n)]. *)
Definition recv (n : Z) (sock : socket) : outcome exn bytes * socket :=
  read_upto n sock.

(** [struct.unpack('>H', b)[0]]: two bytes, most significant first. *)
Definition unpack_H (b : bytes) : outcome exn Z :=
  match b with
  | [hi; lo] => Return (256 * byte_to_Z hi + byte_to_Z lo)
  | _ => Raise StructError
  end.

(** Lines written to the console by [read_dlt_packet] and by the loop of
    [main] (the hex dump of a packet is kept as the packet itself). *)
Inductive line :=
| InvalidMessageLength (msg_len : Z)
| ConnectionClosedByDaemon
| PacketDump (packet_count : Z) (packet : bytes)
| ErrorReadingPacket (e : exn).

(** The [while remaining > 0] loop of [read_dlt_packet]. *)
Equations? read_remaining (remaining : Z) (message : bytes) (sock : socket)
  : outcome exn (option bytes) * socket by wf (Z.to_nat remaining) lt :=
  read_remaining remaining message sock with decide (remaining > 0) => {
    | right _ := (Return (Some message), sock);
    | left _ with inspect (recv remaining sock) => {
        | exist _ (Raise e, sock') _ := (Raise e, sock');
        | exist _ (Return chunk, sock') _ with decide (chunk = []) => {
            | left _ := (Return None, sock');
            | right _ := read_remaining (remaining - len chunk) (message ++ chunk) sock' } } }.
Proof.
  destruct chunk as [|b chunk]; [done|]. unfold len. simpl length. lia.
Qed.

(** [read_dlt_packet(sock)]: the value returned or the exception raised, the
    socket afterwards, and the lines printed. *)
Definition read_dlt_packet (sock : socket)
  : outcome exn (option bytes) * socket * list line :=
  match recv 4 sock with
  | (Raise e, sock) => (Raise e, sock, [])
  | (Return std_header, sock) =>
      if decide (len std_header < 4) then (Return None, sock, [])
      else
        match unpack_H (slice 2 4 std_header) with
        | Raise e => (Raise e, sock, [])
        | Return msg_len =>
            if decide (msg_len < 4 \/ msg_len > 65535)
            then (Return None, sock, [InvalidMessageLength msg_len])
            else
              let remaining := msg_len - 4 in
              let message := std_header in
              let '(r, sock) := read_remaining remaining message sock in
              (r, sock, [])
        end
  end.

(** Every call consumes part of a socket that is not closed: this is what
    makes the loop of [main] end on a finite script. *)
Lemma read_remaining_weight remaining message sock :
  (weight (read_remaining remaining message sock).2 <= weight sock)%nat.
Proof.
  funelim (read_remaining remaining message sock); simpl; try lia.
  - pose proof (read_upto_weight_le remaining sock) as Hw.
    unfold recv in *. match goal with H : read_upto _ _ = _ |- _ => rewrite H in Hw end.
    simpl in Hw. lia.
  - pose proof (read_upto_weight_le remaining sock) as Hw.
    unfold recv in *. match goal with H : read_upto _ _ = _ |- _ => rewrite H in Hw end.
    simpl in Hw. lia.
  - pose proof (read_upto_weight_le remaining sock) as Hw.
    unfold recv in *. match goal with H : read_upto _ _ = _ |- _ => rewrite H in Hw end.
    simpl in Hw. lia.
Qed.

Lemma read_dlt_packet_weight sock :
  sock <> [] -> (weight (read_dlt_packet sock).1.2 < weight sock)%nat.
Proof.
  intros Hs. unfold read_dlt_packet, recv.
  pose proof (read_upto_weight_lt 4 sock ltac:(lia) Hs) as Hw.
  destruct (read_upto 4 sock) as [[std_header|e] sock1]; simpl in *; [|done].
  case_decide; [done|].
  destruct (unpack_H _); [|done].
  case_decide; [done|].
  pose proof (read_remaining_weight (v - 4) std_header sock1) as Hr.
  destruct (read_remaining _ _ _); simpl in *. lia.
Qed.

(** The [while True] loop of [main], once connected: the packets counted,
    the socket afterwards and the lines printed.  A timeout goes round the
    loop again; [None] and any other exception leave it. *)
Equations? main_loop (sock : socket) (packet_count : Z) (out : list line)
  : Z * socket * list line by wf (weight sock) lt :=
  main_loop sock packet_count out with inspect (read_dlt_packet sock) => {
    | exist _ (Return None, sock', printed) _ :=
        (packet_count, sock', out ++ printed ++ [ConnectionClosedByDaemon]);
    | exist _ (Return (Some packet), sock', printed) _ :=
        main_loop sock' (packet_count + 1)
                  (out ++ printed ++ [PacketDump (packet_count + 1) packet]);
    | exist _ (Raise SocketTimeout, sock', printed) _ :=
        main_loop sock' packet_count (out ++ printed);
    | exist _ (Raise e, sock', printed) _ :=
        (packet_count, sock', out ++ printed ++ [ErrorReadingPacket e]) }.
Proof.
  all: match goal with H : read_dlt_packet ?s = _ |- _ =>
         assert (s <> []) as Hne by (intros ->; discriminate H);
         pose proof (read_dlt_packet_weight s Hne) as Hw; rewrite H in Hw; exact Hw
       end.
Qed.

End HexViewer.

(** * The websocket bridge: [read_from_dlt] and [broadcast_messages] *)

Module Bridge.

(** Exceptions seen by the [try] statement of [read_from_dlt]:
    [asyncio.CancelledError], [ConnectionRefusedError], and any other
    [Exception] (reset, timeout, name resolution, ...). *)
Inductive exn := CancelledError | ConnectionRefusedError | OtherException.

#[global] Instance exn_eq_dec : EqDecision exn.
Proof. solve_decision. Defined.

(** Lines written to the console by the two tasks. *)
Inductive line :=
| Connecting
| ConnectedToDaemon
| DaemonConnectionClosed
| Received (data : bytes)
| ConnectionRefused
| ErrorLine
| Broadcasting (data : bytes) (clients : nat)
| ErrorSending
| NoClientsDataDropped.

(** What [read_from_dlt] does, in order.  A connection is named by the
    number of connections opened before it; [OpenConnection w] records the
    call of [asyncio.open_connection] and, when it succeeds, the writer it
    binds; [Propagate e] is the exception [e] leaving the coroutine, which
    ends the task. *)
Inductive action :=
| Print (l : line)
| OpenConnection (writer : option nat)
| Put (data : bytes)
| Sleep (seconds : Z)
| CloseWriter (writer : nat)
| Propagate (e : exn).

(** One turn of the outer [while True]: [open_connection] raises, or it
    returns a reader, given by the stream it will deliver. *)
Inductive attempt :=
| OpenRaises (e : exn)
| Opened (reader : stream exn).

(** [reader.read(n)]. *)
Definition read (n : Z) (reader : stream exn) : outcome exn bytes * stream exn :=
  read_upto n reader.

Definition prepend {A B} (l : list A) (r : list A * B) : list A * B :=
  (l ++ r.1, r.2).

(** The inner [while True] of [read_from_dlt]: what it does, and the
    exception that ends it, if one does ([None] is the [break]). *)
Equations? read_loop (reader : stream exn) : list action * option exn
  by wf (weight reader) lt :=
  read_loop reader with inspect (read 4096 reader) => {
    | exist _ (Raise e, reader') _ := ([], Some e);
    | exist _ (Return data, reader') _ with decide (data = []) => {
        | left _ := ([Print DaemonConnectionClosed], None);
        | right _ := prepend [Put data; Print (Received data)] (read_loop reader') } }.
Proof.
  match goal with H : read 4096 ?s = _ |- _ =>
    assert (s <> []) as Hne by (intros ->; simpl in H; congruence);
    pose proof (read_upto_weight_lt 4096 s ltac:(lia) Hne) as Hw;
    unfold read in H; rewrite H in Hw; exact Hw
  end.
Qed.

(** The [except] clauses: what the handler does, and whether the outer loop
    goes on ([CancelledError] breaks out of it). *)
Definition handler (e : exn) : list action * bool :=
  match e with
  | CancelledError => ([], false)
  | ConnectionRefusedError => ([Print ConnectionRefused; Sleep 5], true)
  | OtherException => ([Print ErrorLine; Sleep 5], true)
  end.

(** What the close waiter of a connection holds once [reader.read] has
    ended the inner loop with [raised].  In asyncio's streams, [read] raises
    the exception that [connection_lost(exc)] gave to the reader, and
    [connection_lost] gives the same exception to the close waiter; the
    cancellation of the task is raised at the [await], the connection is not
    lost by it. *)
Definition connection_lost (raised : option exn) : option exn :=
  match raised with
  | Some CancelledError => None
  | _ => raised
  end.

(** The [finally] clause:
    [if 'writer' in locals(): writer.close(); await writer.wait_closed()].
    The local [writer] keeps the last writer bound, across turns.
    [wait_closed] awaits the close waiter of the connection, which holds
    [lost]: it raises the exception with which the connection was lost, and
    nothing in the clause catches it. *)
Definition finally (writer : option nat) (lost : option exn)
  : list action * option exn :=
  match writer with
  | Some w => ([CloseWriter w], lost)
  | None => ([], None)
  end.

(** After the [finally] clause: an exception raised in it leaves the
    [while True] and the coroutine; otherwise the handler's [break] ends the
    loop, or its next turn starts. *)
Definition after_finally (reraised : option exn) (go_on : bool)
    (next : list action) : list action :=
  match reraised with
  | Some e => [Propagate e]
  | None => if go_on then next else []
  end.

(** The outer [while True] of [read_from_dlt], over the script of its
    connection attempts; the observation stops where the script does.  When
    [open_connection] raises, [writer] is still bound to the writer of an
    earlier turn, if there was one.  The connection of that writer was closed
    without an exception, since the task would otherwise have ended there:
    its close waiter is done, and [wait_closed] returns. *)
Fixpoint read_from_dlt_loop (script : list attempt) (writer : option nat)
    (opened : nat) : list action :=
  match script with
  | [] => []
  | OpenRaises e :: script' =>
      let '(handled, go_on) := handler e in
      let '(closing, reraised) := finally writer None in
      [Print Connecting; OpenConnection None] ++ handled ++ closing ++
      after_finally reraised go_on (read_from_dlt_loop script' writer opened)
  | Opened reader :: script' =>
      let writer := Some opened in
      let '(body, raised) := read_loop reader in
      let '(handled, go_on) :=
        match raised with
        | Some e => handler e
        | None => ([], true)
        end in
      let '(closing, reraised) := finally writer (connection_lost raised) in
      [Print Connecting; OpenConnection writer; Print ConnectedToDaemon] ++
      body ++ handled ++ closing ++
      after_finally reraised go_on (read_from_dlt_loop script' writer (S opened))
  end.

Definition read_from_dlt (script : list attempt) : list action :=
  read_from_dlt_loop script None 0.

(** The entries of [message_queue] after a run of [read_from_dlt], when
    nothing is taken out: the data of the [put] calls, in order. *)
Definition puts (trace : list action) : list bytes :=
  omap (fun a => match a with Put data => Some data | _ => None end) trace.

(** ** The broadcaster

    [broadcast_messages] runs concurrently with [read_from_dlt], which puts
    data in [message_queue], and with the [websocket_handler] of every
    client, which adds its websocket to [websocket_clients] and discards it
    when the client goes.  The other tasks run only while the broadcaster
    waits in an [await], so the model is a transition system whose states
    record where the broadcaster waits, and whose labels are the moves of the
    broadcaster and of its environment. *)

(** Where [broadcast_messages] is: in [await message_queue.get()]; in
    [await ws.send(data)] for the first websocket of [todo], the part of
    [list(websocket_clients)] not yet served; or finished. *)
Inductive control :=
| Getting
| Sending (data : bytes) (todo : list nat)
| Stopped.

#[global] Instance control_eq_dec : EqDecision control.
Proof. solve_decision. Defined.

Record state := {
  pc : control;
  message_queue : list bytes;
  websocket_clients : gset nat;
  accepted : nat;                 (* websockets handed to the handler so far *)
  sent : list (nat * bytes);      (* the [ws.send(data)] that returned *)
  console : list line;
}.

Inductive label :=
| QueuePut (data : bytes)     (* [read_from_dlt]: [message_queue.put(data)] *)
| ClientJoins                 (* handler: [websocket_clients.add(websocket)] *)
| ClientLeaves (ws : nat)     (* handler: [websocket_clients.discard(websocket)] *)
| Get (order : list nat)      (* [get()] returns; [order] is [list(websocket_clients)] *)
| SendReturns                 (* [ws.send(data)] returns *)
| SendRaises                  (* [ws.send(data)] raises an [Exception] *)
| Cancel.                     (* [CancelledError] at the current [await] *)

(** The next [ws] of the [for] loop, or back to [get()] when it is over. *)
Definition next_send (data : bytes) (todo : list nat) : control :=
  match todo with
  | [] => Getting
  | _ :: _ => Sending data todo
  end.

(** An iteration order of the set: each member once, in any order. *)
Definition enumerates (order : list nat) (clients : gset nat) : Prop :=
  NoDup order /\ list_to_set order = clients.

(** [message_queue.put(data)], as [read_from_dlt] calls it. *)
Definition message_queue_put (data : bytes) (s : state) : state :=
  {| pc := pc s; message_queue := message_queue s ++ [data];
     websocket_clients := websocket_clients s; accepted := accepted s;
     sent := sent s; console := console s |}.

(** [websocket_handler], on entry: [websocket_clients.add(websocket)] for the
    websocket just accepted. *)
Definition websocket_handler_add (s : state) : state :=
  {| pc := pc s; message_queue := message_queue s;
     websocket_clients := websocket_clients s ∪ {[accepted s]};
     accepted := S (accepted s);
     sent := sent s; console := console s |}.

(** [websocket_handler], in its [finally]:
    [websocket_clients.discard(websocket)]. *)
Definition websocket_handler_discard (ws : nat) (s : state) : state :=
  {| pc := pc s; message_queue := message_queue s;
     websocket_clients := websocket_clients s ∖ {[ws]};
     accepted := accepted s;
     sent := sent s; console := console s |}.

(** [broadcast_messages], from one [await] to the next. *)
Definition broadcast_messages (s : state) (l : label) : option state :=
  match l with
  | Get order =>
      match pc s, message_queue s with
      | Getting, data :: queue =>
          if decide (enumerates order (websocket_clients s)) then
            if decide (websocket_clients s ≠ ∅) then
              Some {| pc := next_send data order; message_queue := queue;
                      websocket_clients := websocket_clients s;
                      accepted := accepted s; sent := sent s;
                      console := console s ++
                        [Broadcasting data (size (websocket_clients s))] |}
            else
              Some {| pc := Getting; message_queue := queue;
                      websocket_clients := websocket_clients s;
                      accepted := accepted s; sent := sent s;
                      console := console s ++ [NoClientsDataDropped] |}
          else None
      | _, _ => None
      end
  | SendReturns =>
      match pc s with
      | Sending data (ws :: todo) =>
          Some {| pc := next_send data todo; message_queue := message_queue s;
                  websocket_clients := websocket_clients s;
                  accepted := accepted s;
                  sent := sent s ++ [(ws, data)]; console := console s |}
      | _ => None
      end
  | SendRaises =>
      match pc s with
      | Sending data (ws :: todo) =>
          Some {| pc := next_send data todo; message_queue := message_queue s;
                  websocket_clients := websocket_clients s ∖ {[ws]};
                  accepted := accepted s;
                  sent := sent s; console := console s ++ [ErrorSending] |}
      | _ => None
      end
  | Cancel =>
      match pc s with
      | Stopped => None
      | _ =>
          Some {| pc := Stopped; message_queue := message_queue s;
                  websocket_clients := websocket_clients s;
                  accepted := accepted s;
                  sent := sent s; console := console s |}
      end
  | _ => None
  end.

(** One move of the system: of the environment, which is always possible,
    or of the broadcaster, when it is enabled. *)
Definition step (s : state) (l : label) : option state :=
  match l with
  | QueuePut data => Some (message_queue_put data s)
  | ClientJoins => Some (websocket_handler_add s)
  | ClientLeaves ws => Some (websocket_handler_discard ws s)
  | Get _ | SendReturns | SendRaises | Cancel => broadcast_messages s l
  end.

(** A run: the labels taken one after the other, when each is enabled. *)
Fixpoint run (s : state) (ls : list label) : option state :=
  match ls with
  | [] => Some s
  | l :: ls' =>
      match step s l with
      | Some s' => run s' ls'
      | None => None
      end
  end.

(** The state when [main] has created the queue and started the tasks. *)
Definition initial : state :=
  {| pc := Getting; message_queue := []; websocket_clients := ∅;
     accepted := 0; sent := []; console := [] |}.

End Bridge.

(** * The hex viewer: [format_hex] *)

Module HexDump.

(** A Python [str], as the list of its characters. *)
Abbreviation str := (list ascii).

(** [range] raises [ValueError] when its step is zero. *)
Inductive exn := ValueError.

(** [range(start, stop, step)], as the list of its values. *)
Definition range (start stop step : Z) : outcome exn (list Z) :=
  if decide (step = 0) then Raise ValueError
  else
    let count :=
      if decide (0 < step) then (stop - start + step - 1) / step
      else (start - stop - step - 1) / (- step) in
    Return (map (fun k => start + Z.of_nat k * step) (seq 0 (Z.to_nat count))).

(** The digit of a value below 16, in lower case. *)
Definition hex_digit (d : Z) : ascii :=
  nth (Z.to_nat d)
      ["0"; "1"; "2"; "3"; "4"; "5"; "6"; "7"; "8"; "9";
       "a"; "b"; "c"; "d"; "e"; "f"]%char "0"%char.

(** The digits of [n >= 0] in base 16, without leading zero. *)
Equations? hex (n : Z) : str by wf (Z.to_nat n) lt :=
  hex n with decide (n < 16) => {
    | left _ := [hex_digit n];
    | right _ := hex (n / 16) ++ [hex_digit (n mod 16)] }.
Proof.
  assert (n / 16 < n) by (apply Z.div_lt; lia).
  assert (0 <= n / 16) by (apply Z.div_pos; lia). lia.
Qed.

(** [s.rjust(width, '0')] and [s.ljust(width)]. *)
Definition rjust0 (width : Z) (s : str) : str :=
  replicate (Z.to_nat (width - len s)) "0"%char ++ s.

Definition ljust (width : Z) (s : str) : str :=
  s ++ replicate (Z.to_nat (width - len s)) " "%char.

(** [f'{n:04x}'] and [f'{b:02x}']: base 16, padded with zeros to [width]. *)
Definition format_x (width : Z) (n : Z) : str := rjust0 width (hex n).

(** [sep.join(parts)]. *)
Fixpoint join (sep : str) (parts : list str) : str :=
  match parts with
  | [] => []
  | [part] => part
  | part :: parts' => part ++ sep ++ join sep parts'
  end.

(** [chr(b) if 32 <= b < 127 else '.']. *)
Definition printable (b : byte) : ascii :=
  if decide (32 <= byte_to_Z b /\ byte_to_Z b < 127) then ascii_of_byte b
  else "."%char.

(** The body of the [for] loop: the line for the bytes at offset [i]. *)
Definition format_line (data : bytes) (bytes_per_line : Z) (i : Z) : str :=
  let chunk := slice (Z.to_nat i) (Z.to_nat (i + bytes_per_line)) data in
  let hex_part := join [" "%char] (map (fun b => format_x 2 (byte_to_Z b)) chunk) in
  let hex_part := ljust (bytes_per_line * 3 - 1) hex_part in
  let ascii_part := map printable chunk in
  [" "; " "]%char ++ format_x 4 i ++ [" "; " "]%char ++ hex_part ++
  [" "; " "]%char ++ ascii_part.

(** [format_hex(data, bytes_per_line)]; the viewer calls it with the default
    [bytes_per_line=16]. *)
Definition format_hex (data : bytes) (bytes_per_line : Z) : outcome exn str :=
  match range 0 (len data) bytes_per_line with
  | Raise e => Raise e
  | Return offsets =>
      let lines := map (format_line data bytes_per_line) offsets in
      Return (join ["010"%char] lines)
  end.

End HexDump.

(** * What the specification talks about *)

(** The length field of a frame: bytes 2-3 of its standard header, most
    significant byte first. *)
Definition length_field (frame : bytes) : option Z :=
  match frame with
  | _ :: _ :: hi :: lo :: _ => Some (256 * byte_to_Z hi + byte_to_Z lo)
  | _ => None
  end.

(** The invariant of a Frame in the specification: its length is the value
    of its length field, between 4 and 65535. *)
Definition frame_invariant (frame : bytes) : Prop :=
  exists n, length_field frame = Some n /\ len frame = n /\ 4 <= n <= 65535.

(** The bytes a stream delivers before it ends or faults, however they are
    cut into arrivals.  (An arrival without bytes is the end of the stream:
    the call returns [b''] there.) *)
Fixpoint readable {E} (s : stream E) : bytes :=
  match s with
  | Data (b :: chunk) :: rest => b :: chunk ++ readable rest
  | _ => []
  end.

(** What ends the delivery of a stream: the fault met after the readable
    bytes, or nothing when the stream is closed. *)
Fixpoint stream_end {E} (s : stream E) : option E :=
  match s with
  | Data (_ :: _) :: rest => stream_end rest
  | Fault e :: _ => Some e
  | _ => None
  end.

(** The bytes the daemon delivers to the task over the successive
    connections of a script: up to the cancellation of the task, or to the
    exception that a read raises, since the task ends with it. *)
Fixpoint upstream_bytes (script : list Bridge.attempt) : bytes :=
  match script with
  | [] => []
  | Bridge.OpenRaises e :: script' =>
      if decide (e = Bridge.CancelledError) then [] else upstream_bytes script'
  | Bridge.Opened reader :: script' =>
      readable reader ++
      (if decide (stream_end reader = None) then upstream_bytes script' else [])
  end.




(** The release of the connection resource: the writer held, if any, is
    closed. *)
Definition released (writer : option nat) : list Bridge.action :=
  match writer with
  | Some w => [Bridge.CloseWriter w]
  | None => []
  end.



(** The actions of the inner loop of [read_from_dlt]: they neither report a
    failure nor bind a writer. *)
Definition quiet (a : Bridge.action) : Prop :=
  match a with
  | Bridge.Put _ | Bridge.Print (Bridge.Received _)
  | Bridge.Print Bridge.DaemonConnectionClosed => True
  | _ => False
  end.

(** ** Observations on the broadcaster *)

(** What a websocket has been sent, in the order of the sends. *)
Definition received (ws : nat) (s : Bridge.state) : list bytes :=
  omap (fun '(w, data) => if decide (w = ws) then Some data else None) (Bridge.sent s).

(** The data taken from the queue that [ws] is still to be sent in the
    current pass. *)
Definition in_flight (ws : nat) (s : Bridge.state) : list bytes :=
  match Bridge.pc s with
  | Bridge.Sending data todo => if decide (ws ∈ todo) then [data] else []
  | _ => []
  end.

(** The data of the current pass, whoever it is still for. *)
Definition in_hand (s : Bridge.state) : list bytes :=
  match Bridge.pc s with
  | Bridge.Sending data _ => [data]
  | _ => []
  end.

(** The data put in the queue by the labels of a run. *)
Definition queue_puts (ls : list Bridge.label) : list bytes :=
  omap (fun l => match l with Bridge.QueuePut data => Some data | _ => None end) ls.

(** The results of the sends among the labels of a run: [true] for a send
    that returns, [false] for one that raises. *)
Definition send_results (ls : list Bridge.label) : list bool :=
  omap (fun l => match l with
                 | Bridge.SendReturns => Some true
                 | Bridge.SendRaises => Some false
                 | _ => None
                 end) ls.

(** The labels of one pass: no other [get()], no cancellation. *)
Definition within_pass (l : Bridge.label) : Prop :=
  match l with
  | Bridge.Get _ | Bridge.Cancel => False
  | _ => True
  end.

(** The websockets of a pass paired with the results of their sends, and
    those among them with a given result. *)
Definition with_result (r : bool) (order : list nat) (results : list bool) : list nat :=
  omap (fun '(ws, r') => if decide (r' = r) then Some ws else None) (zip order results).

(** A property of the states a run goes through, the first and the last
    included. *)
Fixpoint always (P : Bridge.state -> Prop) (s : Bridge.state) (ls : list Bridge.label) : Prop :=
  P s /\
  match ls with
  | [] => True
  | l :: ls' =>
      match Bridge.step s l with
      | Some s' => always P s' ls'
      | None => True
      end
  end.

(** States that runs from [initial] go through: the registered websockets
    were all accepted, and the rest of a pass holds accepted websockets,
    each once. *)
Definition well_formed (s : Bridge.state) : Prop :=
  (forall ws, ws ∈ Bridge.websocket_clients s -> (ws < Bridge.accepted s)%nat) /\
  match Bridge.pc s with
  | Bridge.Sending _ todo =>
      NoDup todo /\ todo <> [] /\ forall ws, ws ∈ todo -> (ws < Bridge.accepted s)%nat
  | _ => True
  end.

(** The labels that leave [websocket_clients] as it is: a put, and the moves
    of the broadcaster when the send returns. *)
Definition keeps_clients (l : Bridge.label) : Prop :=
  match l with
  | Bridge.QueuePut _ | Bridge.Get _ | Bridge.SendReturns => True
  | _ => False
  end.

Definition not_a_put (l : Bridge.label) : Prop :=
  match l with
  | Bridge.QueuePut _ => False
  | _ => True
  end.

(** The moves of the broadcaster from a state on, when every send returns
    and nothing else happens: the sends left in the pass in progress, then,
    for each entry of the queue, the [get()] that takes it and one send for
    each registered websocket. *)
Definition flush (s : Bridge.state) : list Bridge.label :=
  match Bridge.pc s with
  | Bridge.Sending _ todo => replicate (length todo) Bridge.SendReturns
  | _ => []
  end ++
  concat (map (fun _ =>
                 Bridge.Get (elements (Bridge.websocket_clients s)) ::
                 replicate (length (elements (Bridge.websocket_clients s)))
                           Bridge.SendReturns)
              (Bridge.message_queue s)).

(** Bytes written as numbers, for the examples. *)
Definition bs (l : list Z) : bytes :=
  omap (fun z => Byte.of_N (Z.to_N z)) l.

(** The broadcaster with one entry in the queue and nobody registered, and
    the same once the entry has been taken and dropped. *)
Definition initial_with_data : Bridge.state :=
  {| Bridge.pc := Bridge.Getting; Bridge.message_queue := [bs [7]];
     Bridge.websocket_clients := ∅; Bridge.accepted := 0;
     Bridge.sent := []; Bridge.console := [] |}.

Definition initial_after_drop : Bridge.state :=
  {| Bridge.pc := Bridge.Getting; Bridge.message_queue := [];
     Bridge.websocket_clients := ∅; Bridge.accepted := 0;
     Bridge.sent := []; Bridge.console := [Bridge.NoClientsDataDropped] |}.

(** Two registered websockets; a run in which three entries are put in the
    queue and broadcast, the send to websocket 1 raising in the first pass;
    and the state at the end of it. *)
Definition two_clients : Bridge.state :=
  {| Bridge.pc := Bridge.Getting; Bridge.message_queue := [];
     Bridge.websocket_clients := {[0%nat; 1%nat]}; Bridge.accepted := 2;
     Bridge.sent := []; Bridge.console := [] |}.

Definition three_entries : list Bridge.label :=
  [Bridge.QueuePut (bs [1]); Bridge.QueuePut (bs [2]); Bridge.Get [1%nat; 0%nat];
   Bridge.QueuePut (bs [3]); Bridge.SendRaises; Bridge.SendReturns;
   Bridge.Get [0%nat]; Bridge.SendReturns; Bridge.Get [0%nat]; Bridge.SendReturns].

Definition three_sent : Bridge.state :=
  {| Bridge.pc := Bridge.Getting; Bridge.message_queue := [];
     Bridge.websocket_clients := {[0%nat]}; Bridge.accepted := 2;
     Bridge.sent := [(0%nat, bs [1]); (0%nat, bs [2]); (0%nat, bs [3])];
     Bridge.console := [Bridge.Broadcasting (bs [1]) 2; Bridge.ErrorSending;
                        Bridge.Broadcasting (bs [2]) 1; Bridge.Broadcasting (bs [3]) 1] |}.

(** Three frames, and the connection on which each read returns one of
    them. *)
Definition three_frames : list bytes :=
  [bs [1; 0; 0; 4]; bs [1; 1; 0; 6; 7; 8]; bs [1; 2; 0; 5; 9]].

Definition frame_per_read : list Bridge.attempt :=
  [Bridge.Opened (map Data three_frames)].

(** ** Further observations on the viewer *)

(** An arrival that carries bytes; a stream of such arrivals has no fault
    and ends by the peer closing it. *)
Definition carries_data {E} (a : arrival E) : Prop :=
  match a with
  | Data (_ :: _) => True
  | _ => False
  end.

Definition not_a_fault {E} (a : arrival E) : Prop :=
  match a with
  | Data _ => True
  | Fault _ => False
  end.

(** The packets dumped by the loop of [main], with the number printed for
    each. *)
Definition dumped (out : list HexViewer.line) : list (Z * bytes) :=
  omap (fun l => match l with
                 | HexViewer.PacketDump n packet => Some (n, packet)
                 | _ => None
                 end) out.

(** Packets numbered from [packet_count + 1] on. *)
Fixpoint numbered (packet_count : Z) (packets : list bytes) : list (Z * bytes) :=
  match packets with
  | [] => []
  | packet :: packets' =>
      (packet_count + 1, packet) :: numbered (packet_count + 1) packets'
  end.

(** The way one frame reaches the viewer: some timeouts of [recv] while
    nothing arrives, then the frame cut into runs of bytes. *)
Definition delivery : Type := nat * list bytes.

Definition arrivals_of (d : delivery) : HexViewer.socket :=
  replicate d.1 (Fault HexViewer.SocketTimeout) ++ map Data d.2.

(** The frame is valid, its header comes with the first run, and no run is
    empty. *)
Definition delivers_frame (d : delivery) : Prop :=
  frame_invariant (concat d.2) /\
  Forall (fun chunk => chunk <> []) d.2 /\
  exists chunk chunks, d.2 = chunk :: chunks /\ 4 <= len chunk.

(** ** Further observations on the ingest task *)

(** A turn of the outer loop that ends with the cancellation of the task:
    while connecting, or while reading. *)
Definition cancelled (a : Bridge.attempt) : Prop :=
  match a with
  | Bridge.OpenRaises e => e = Bridge.CancelledError
  | Bridge.Opened reader => stream_end reader = Some Bridge.CancelledError
  end.

(** A turn in which a read raises an exception other than the cancellation
    of the task. *)
Definition read_fails (a : Bridge.attempt) : Prop :=
  match a with
  | Bridge.OpenRaises _ => False
  | Bridge.Opened reader =>
      exists e, stream_end reader = Some e /\ e <> Bridge.CancelledError
  end.

(** The calls of [open_connection] in a trace, with the writer each of them
    bound. *)
Definition connection_attempts (trace : list Bridge.action) : list (option nat) :=
  omap (fun a => match a with
                 | Bridge.OpenConnection writer => Some writer
                 | _ => None
                 end) trace.

(** What the calls of [open_connection] bind, turn after turn of a script
    that neither a cancellation nor an exception of a read cuts short:
    nothing when the call raises, a new writer when it returns. *)
Fixpoint writers_bound (script : list Bridge.attempt) (opened : nat)
  : list (option nat) :=
  match script with
  | [] => []
  | Bridge.OpenRaises _ :: script' => None :: writers_bound script' opened
  | Bridge.Opened _ :: script' => Some opened :: writers_bound script' (S opened)
  end.

Definition not_an_attempt (a : Bridge.action) : Prop :=
  match a with
  | Bridge.OpenConnection _ => False
  | _ => True
  end.

(** ** Further observations on the broadcaster *)

Definition not_a_get (l : Bridge.label) : Prop :=
  match l with
  | Bridge.Get _ => False
  | _ => True
  end.

(** ** Observations on the hex dump *)

(** The line break between the lines of a dump. *)
Definition newline : ascii := "010"%char.

(** The characters a terminal shows as they are: the printable ASCII
    characters, from the space to the tilde. *)
Definition shown_as_is (c : ascii) : Prop := (32 <= nat_of_ascii c < 127)%nat.

(** The number of lines of a dump: the bytes, by [bytes_per_line], rounded
    up. *)
Definition line_count (data : bytes) (bytes_per_line : Z) : nat :=
  Z.to_nat ((len data + bytes_per_line - 1) / bytes_per_line).

(** The bytes shown on line [k] of a dump. *)
Definition line_bytes (data : bytes) (bytes_per_line : Z) (k : nat) : bytes :=
  take (Z.to_nat bytes_per_line) (drop (k * Z.to_nat bytes_per_line) data).

(** Two registered websockets and one entry in the queue, and the state
    after a pass in which both sends return while a third websocket joins
    and websocket 1 leaves. *)
Definition pass_start : Bridge.state :=
  {| Bridge.pc := Bridge.Getting; Bridge.message_queue := [bs [7]];
     Bridge.websocket_clients := {[0%nat; 1%nat]}; Bridge.accepted := 2;
     Bridge.sent := []; Bridge.console := [] |}.

Definition pass_done : Bridge.state :=
  {| Bridge.pc := Bridge.Getting; Bridge.message_queue := [];
     Bridge.websocket_clients := {[0%nat; 2%nat]}; Bridge.accepted := 3;
     Bridge.sent := [(1%nat, bs [7]); (0%nat, bs [7])];
     Bridge.console := [Bridge.Broadcasting (bs [7]) 2] |}.

(** The run of [three_entries] at the moment when websocket 1 has left, in
    the middle of the first pass. *)
Definition one_left : Bridge.state :=
  {| Bridge.pc := Bridge.Sending (bs [1]) [1%nat; 0%nat];
     Bridge.message_queue := [bs [2]; bs [3]];
     Bridge.websocket_clients := {[0%nat; 1%nat]} ∖ {[1%nat]}; Bridge.accepted := 2;
     Bridge.sent := []; Bridge.console := [Bridge.Broadcasting (bs [1]) 2] |}.

(** * Properties of the frame reader *)

Section FrameReader.
Import HexViewer.

Lemma byte_to_Z_range (b : byte) : 0 <= byte_to_Z b <= 255.
Proof. unfold byte_to_Z. pose proof (Byte.to_N_bounded b). lia. Qed.

Lemma len_nonneg {A} (l : list A) : 0 <= len l.
Proof. unfold len. lia. Qed.

Lemma len_app {A} (l k : list A) : len (l ++ k) = len l + len k.
Proof. unfold len. rewrite length_app. lia. Qed.

Lemma len_nil_iff {A} (l : list A) : len l = 0 <-> l = [].
Proof. unfold len. destruct l; simpl; split; (done || lia). Qed.

Lemma length_field_header (std_header : bytes) :
  len std_header = 4 ->
  exists n, unpack_H (slice 2 4 std_header) = Return n /\
            length_field std_header = Some n /\ 0 <= n <= 65535.
Proof.
  unfold len. intros Hl.
  destruct std_header as [|b0 [|b1 [|hi [|lo [|? ?]]]]]; simpl in Hl; try lia.
  eexists. split; [reflexivity|]. split; [reflexivity|].
  pose proof (byte_to_Z_range hi). pose proof (byte_to_Z_range lo). lia.
Qed.

Lemma length_field_take (frame : bytes) n :
  length_field frame = Some n -> length_field (take 4 frame) = Some n.
Proof. destruct frame as [|b0 [|b1 [|hi [|lo ?]]]]; simpl; done. Qed.

(** One call never returns more than it is asked for. *)
Lemma read_upto_at_most {E} n (s s' : stream E) chunk :
  0 <= n -> read_upto n s = (Return chunk, s') -> len chunk <= n.
Proof.
  intros Hn. destruct s as [|[c|e] rest]; simpl.
  - intros [= <- <-]. done.
  - case_decide; intros [= <- <-]; [done|].
    unfold len in *. rewrite length_take. lia.
  - done.
Qed.

(** On a stream that still delivers bytes, a call returns some of them. *)
Lemma read_upto_readable {E} n (s : stream E) :
  0 < n -> readable s <> [] ->
  exists chunk s', read_upto n s = (Return chunk, s') /\ chunk <> [] /\
                   readable s = chunk ++ readable s'.
Proof.
  intros Hn Hr. destruct s as [|[[|b c]|e] rest]; simpl in Hr; try done.
  simpl read_upto. case_decide as Hle.
  - eexists _, _. split; [reflexivity|]. split; [done|]. reflexivity.
  - eexists _, _. split; [reflexivity|].
    assert (Z.to_nat n < length (b :: c))%nat as Hlt by (unfold len in Hle; lia).
    assert (exists m, Z.to_nat n = S m) as [m Hm] by (exists (Z.to_nat n - 1)%nat; lia).
    split.
    + rewrite Hm. done.
    + destruct (drop (Z.to_nat n) (b :: c)) as [|d ds] eqn:Hd.
      * apply (f_equal length) in Hd. rewrite length_drop in Hd. simpl in *. lia.
      * simpl readable.
        change ((b :: c) ++ readable rest =
                take (Z.to_nat n) (b :: c) ++ (d :: ds) ++ readable rest).
        rewrite <- Hd, app_assoc, take_drop. reflexivity.
Qed.

(** The loop of [read_dlt_packet], one turn unfolded. *)
Lemma read_remaining_eq remaining message sock :
  read_remaining remaining message sock =
  if decide (remaining > 0) then
    match recv remaining sock with
    | (Raise e, sock') => (Raise e, sock')
    | (Return chunk, sock') =>
        if decide (chunk = []) then (Return None, sock')
        else read_remaining (remaining - len chunk) (message ++ chunk) sock'
    end
  else (Return (Some message), sock).
Proof.
  funelim (read_remaining remaining message sock).
  - rewrite decide_False by done. reflexivity.
  - rewrite decide_True by done.
    match goal with H : recv _ _ = _ |- _ => rewrite H end. reflexivity.
  - rewrite decide_True by done.
    match goal with H : recv _ _ = _ |- _ => rewrite H end.
    rewrite decide_True by done. reflexivity.
  - rewrite decide_True by done.
    match goal with H : recv _ _ = _ |- _ => rewrite H end.
    rewrite decide_False by done. reflexivity.
Qed.

(** Induction along the turns of the loop: a property holds of every loop
    state if it holds of a state whenever it holds of the next one. *)
Lemma read_remaining_induction (P : Z -> bytes -> socket -> Prop) :
  (forall remaining message sock,
     (forall chunk sock',
        remaining > 0 -> recv remaining sock = (Return chunk, sock') ->
        chunk <> [] -> P (remaining - len chunk) (message ++ chunk) sock') ->
     P remaining message sock) ->
  forall remaining message sock, P remaining message sock.
Proof.
  intros Hstep remaining.
  remember (Z.to_nat remaining) as k eqn:Hk. revert remaining Hk.
  induction (lt_wf k) as [k _ IH]. intros remaining -> message sock.
  apply Hstep. intros chunk sock' Hr Hrecv Hne.
  eapply IH; [|reflexivity].
  destruct chunk; [done|]. unfold len. simpl length. lia.
Qed.

(** What the loop returns is the message it started from, extended by
    exactly [remaining] bytes. *)
Lemma read_remaining_returns remaining message sock :
  forall packet sock_after,
  0 <= remaining ->
  read_remaining remaining message sock = (Return (Some packet), sock_after) ->
  exists body, packet = message ++ body /\ len body = remaining.
Proof.
  revert remaining message sock.
  apply (read_remaining_induction (fun remaining message sock =>
    forall packet sock_after, 0 <= remaining ->
    read_remaining remaining message sock = (Return (Some packet), sock_after) ->
    exists body, packet = message ++ body /\ len body = remaining)).
  intros remaining message sock IH packet sock_after Hpos.
  rewrite read_remaining_eq. case_decide as Hr.
  - destruct (recv remaining sock) as [[chunk|e] sock'] eqn:Hrecv; [|done].
    case_decide as Hc; [done|]. intros Hout.
    pose proof (read_upto_at_most _ _ _ _ Hpos Hrecv) as Hle.
    destruct (IH chunk sock' Hr eq_refl Hc packet sock_after ltac:(lia) Hout)
      as (body & -> & Hb).
    exists (chunk ++ body). rewrite app_assoc. split; [done|].
    rewrite len_app. lia.
  - intros [= <- <-]. exists []. rewrite app_nil_r. split; [done|].
    unfold len. simpl. lia.
Qed.

(** The loop gets through any cutting of the bytes it waits for. *)
Lemma read_remaining_reads remaining message sock :
  forall body more,
  len body = remaining -> readable sock = body ++ more ->
  exists sock_after,
    read_remaining remaining message sock = (Return (Some (message ++ body)), sock_after) /\
    readable sock_after = more.
Proof.
  revert remaining message sock.
  apply (read_remaining_induction (fun remaining message sock =>
    forall body more, len body = remaining -> readable sock = body ++ more ->
    exists sock_after,
      read_remaining remaining message sock =
        (Return (Some (message ++ body)), sock_after) /\
      readable sock_after = more)).
  intros remaining message sock IH body more Hlen Hread.
  rewrite read_remaining_eq. case_decide as Hr.
  - assert (body <> []) as Hb by (intros ->; unfold len in Hlen; simpl in Hlen; lia).
    assert (readable sock <> []) as Hne
      by (rewrite Hread; destruct body; done).
    destruct (read_upto_readable remaining sock ltac:(lia) Hne)
      as (chunk & sock' & Hrecv & Hc & Hsplit).
    unfold recv at 1. rewrite Hrecv. rewrite decide_False by done.
    pose proof (read_upto_at_most remaining _ _ _ ltac:(lia) Hrecv) as Hle.
    assert (exists body', body = chunk ++ body' /\ readable sock' = body' ++ more)
      as (body' & -> & Hrest).
    { rewrite Hsplit in Hread.
      exists (drop (length chunk) body).
      assert (length chunk <= length body)%nat as Hcb by (unfold len in *; lia).
      assert (chunk = take (length chunk) body) as Htake.
      { apply (f_equal (take (length chunk))) in Hread.
        rewrite take_app_length, take_app_le in Hread by done. done. }
      split.
      - rewrite Htake at 1. symmetry. apply take_drop.
      - apply (f_equal (drop (length chunk))) in Hread.
        rewrite drop_app_length, drop_app_le in Hread by done. done. }
    rewrite len_app in Hlen.
    destruct (IH chunk sock' Hr Hrecv Hc body' more ltac:(lia) Hrest)
      as (sock_after & Hrun & Hafter).
    exists sock_after. rewrite app_assoc. done.
  - assert (body = []) as -> by (apply len_nil_iff; pose proof (len_nonneg body); lia).
    exists sock. rewrite app_nil_r. done.
Qed.

(** Once [recv(4)] has returned four bytes, the length they carry decides
    everything else. *)
Lemma read_dlt_packet_after_header sock std_header sock1 :
  recv 4 sock = (Return std_header, sock1) -> len std_header = 4 ->
  exists msg_len,
    unpack_H (slice 2 4 std_header) = Return msg_len /\
    length_field std_header = Some msg_len /\
    0 <= msg_len <= 65535 /\
    read_dlt_packet sock =
      if decide (msg_len < 4)
      then (Return None, sock1, [InvalidMessageLength msg_len])
      else (let '(r, sock2) := read_remaining (msg_len - 4) std_header sock1 in
            (r, sock2, [])).
Proof.
  intros Hrecv Hlen.
  destruct (length_field_header std_header Hlen) as (n & Hun & Hlf & Hn).
  exists n. repeat split; try done; try lia.
  unfold read_dlt_packet. rewrite Hrecv, decide_False by lia. rewrite Hun.
  destruct (decide (n < 4)).
  - rewrite decide_True by lia. reflexivity.
  - rewrite decide_False by lia. reflexivity.
Qed.

(** C10: the length decoded from bytes 2-3 of a 4-byte header is at most
    65535, so the test [msg_len > 65535] of [read_dlt_packet] never holds:
    the reader takes its invalid-length exit exactly when [msg_len < 4], and
    goes on to read the body otherwise. *)
Theorem msg_len_above_65535_unreachable sock std_header sock1 :
  recv 4 sock = (Return std_header, sock1) -> len std_header = 4 ->
  exists msg_len,
    unpack_H (slice 2 4 std_header) = Return msg_len /\
    msg_len <= 65535 /\
    ((msg_len < 4 \/ msg_len > 65535) <-> msg_len < 4) /\
    read_dlt_packet sock =
      if decide (msg_len < 4)
      then (Return None, sock1, [InvalidMessageLength msg_len])
      else (let '(r, sock2) := read_remaining (msg_len - 4) std_header sock1 in
            (r, sock2, [])).
Proof.
  intros Hrecv Hlen.
  destruct (read_dlt_packet_after_header sock std_header sock1 Hrecv Hlen)
    as (n & Hun & _ & Hn & Hrun).
  exists n. repeat split; try done; lia.
Qed.

Lemma msg_len_above_65535_unreachable_witness :
  exists msg_len,
    unpack_H (slice 2 4 (bs [255; 255; 255; 255])) = Return msg_len /\
    msg_len <= 65535 /\
    ((msg_len < 4 \/ msg_len > 65535) <-> msg_len < 4) /\
    read_dlt_packet [Data (bs [255; 255; 255; 255; 7])] =
      if decide (msg_len < 4)
      then (Return None, [Data (bs [7])], [InvalidMessageLength msg_len])
      else (let '(r, sock2) :=
              read_remaining (msg_len - 4) (bs [255; 255; 255; 255]) [Data (bs [7])] in
            (r, sock2, [])).
Proof.
  apply (msg_len_above_65535_unreachable
           [Data (bs [255; 255; 255; 255; 7])] (bs [255; 255; 255; 255]) [Data (bs [7])]).
  - reflexivity.
  - reflexivity.
Defined.

(** C8: whatever the socket delivers, a packet returned by
    [read_dlt_packet] satisfies the frame invariant: its length is the value
    of the length field at bytes 2-3, and lies between 4 and 65535. *)
Theorem returned_packet_is_a_frame sock packet sock_after printed :
  read_dlt_packet sock = (Return (Some packet), sock_after, printed) ->
  frame_invariant packet.
Proof.
  intros Hrun.
  destruct (recv 4 sock) as [[std_header|e] sock1] eqn:Hrecv;
    [|unfold read_dlt_packet in Hrun; rewrite Hrecv in Hrun; done].
  pose proof (read_upto_at_most 4 _ _ _ ltac:(lia) Hrecv) as Hle.
  destruct (decide (len std_header < 4)) as [Hshort|Hfull].
  { unfold read_dlt_packet in Hrun. rewrite Hrecv, decide_True in Hrun by done. done. }
  destruct (read_dlt_packet_after_header sock std_header sock1 Hrecv ltac:(lia))
    as (n & _ & Hlf & Hn & Heq).
  rewrite Heq in Hrun. case_decide as Hbad; [done|].
  destruct (read_remaining (n - 4) std_header sock1) as [r sock2] eqn:Hloop.
  injection Hrun as -> -> <-.
  destruct (read_remaining_returns (n - 4) _ _ _ _ ltac:(lia) Hloop) as (body & -> & Hb).
  exists n. split; [|split; [|lia]].
  - destruct std_header as [|b0 [|b1 [|hi [|lo ?]]]]; done.
  - rewrite len_app. lia.
Qed.

Lemma returned_packet_is_a_frame_witness :
  frame_invariant (bs [0; 0; 0; 10; 1; 2; 3; 4; 5; 6]).
Proof.
  apply (returned_packet_is_a_frame
           [Data (bs [0; 0; 0; 10; 1]); Data (bs [2; 3]); Data (bs [4; 5; 6; 0; 0])]
           (bs [0; 0; 0; 10; 1; 2; 3; 4; 5; 6]) [Data (bs [0; 0])] []).
  vm_compute. reflexivity.
Defined.

(** C1: a frame of any length from 4 to 65535 at the head of the stream,
    whose header comes with the first call of [recv], is returned whole and
    unchanged, header included, however the bytes after the header are cut
    into arrivals; the socket is left at the first byte after the frame. *)
Theorem frame_read_back_identical (frame more chunk : bytes) (rest : socket) :
  frame_invariant frame ->
  4 <= len chunk ->
  readable (Data chunk :: rest) = frame ++ more ->
  exists sock_after,
    read_dlt_packet (Data chunk :: rest) = (Return (Some frame), sock_after, []) /\
    readable sock_after = more.
Proof.
  intros (n & Hlf & Hlen & Hn) Hchunk Hread.
  set (sock := Data chunk :: rest) in *.
  assert (readable sock <> []) as Hne.
  { rewrite Hread. destruct frame; [|done]. unfold len in Hlen. simpl in Hlen. lia. }
  destruct (read_upto_readable 4 sock ltac:(lia) Hne)
    as (std_header & sock1 & Hrecv & _ & Hsplit).
  assert (len std_header = 4) as Hhdr.
  { subst sock. simpl in Hrecv. case_decide; injection Hrecv as <- <-.
    - lia.
    - unfold len in *. rewrite length_take. lia. }
  assert (length std_header <= length frame)%nat as Hsf by (unfold len in *; lia).
  assert (std_header = take (length std_header) frame) as Htake.
  { rewrite Hsplit in Hread.
    apply (f_equal (take (length std_header))) in Hread.
    rewrite take_app_length, take_app_le in Hread by done. done. }
  assert (readable sock1 = drop (length std_header) frame ++ more) as Hrest.
  { rewrite Hsplit in Hread.
    apply (f_equal (drop (length std_header))) in Hread.
    rewrite drop_app_length, drop_app_le in Hread by done. done. }
  destruct (read_dlt_packet_after_header sock std_header sock1 Hrecv Hhdr)
    as (n' & _ & Hlf' & _ & Heq).
  assert (n' = n) as ->.
  { assert (length std_header = 4%nat) as H4 by (unfold len in Hhdr; lia).
    rewrite Htake, H4 in Hlf'. rewrite (length_field_take _ _ Hlf) in Hlf'. congruence. }
  rewrite Heq, decide_False by lia.
  destruct (read_remaining_reads (n - 4) std_header sock1
              (drop (length std_header) frame) more) as (sock2 & Hloop & Hafter).
  { unfold len in *. rewrite length_drop. lia. }
  { done. }
  exists sock2. rewrite Hloop. split; [|done].
  rewrite Htake at 1. rewrite take_drop. reflexivity.
Qed.

Lemma frame_read_back_identical_witness :
  exists sock_after,
    read_dlt_packet
      [Data (bs [0; 0; 0; 10; 1]); Data (bs [2]); Data (bs [3; 4]);
       Data (bs [5; 6; 0; 0])] =
      (Return (Some (bs [0; 0; 0; 10; 1; 2; 3; 4; 5; 6])), sock_after, []) /\
    readable sock_after = bs [0; 0].
Proof.
  apply (frame_read_back_identical
           (bs [0; 0; 0; 10; 1; 2; 3; 4; 5; 6]) (bs [0; 0]) (bs [0; 0; 0; 10; 1])
           [Data (bs [2]); Data (bs [3; 4]); Data (bs [5; 6; 0; 0])]).
  - exists 10. vm_compute. repeat split; discriminate.
  - vm_compute. discriminate.
  - reflexivity.
Defined.

(** C3 (as the code has it): when the decoded length is outside [4, 65535]
    it is below 4, and [read_dlt_packet] prints the invalid-length line and
    returns [None], the value it also returns at the end of the stream;
    no packet is returned and the socket is left just after the header. *)
Theorem invalid_length_returns_none sock std_header sock1 msg_len :
  recv 4 sock = (Return std_header, sock1) -> len std_header = 4 ->
  unpack_H (slice 2 4 std_header) = Return msg_len ->
  ~ (4 <= msg_len <= 65535) ->
  msg_len < 4 /\
  read_dlt_packet sock = (Return None, sock1, [InvalidMessageLength msg_len]) /\
  (read_dlt_packet sock).1.1 = (read_dlt_packet []).1.1.
Proof.
  intros Hrecv Hlen Hun Hout.
  destruct (read_dlt_packet_after_header sock std_header sock1 Hrecv Hlen)
    as (n & Hun' & _ & Hn & Heq).
  assert (n = msg_len) as -> by congruence.
  assert (msg_len < 4) as Hlt by lia.
  rewrite Heq, decide_True by done. done.
Qed.

Lemma invalid_length_returns_none_witness :
  3 < 4 /\
  read_dlt_packet [Data (bs [0; 0; 0; 3; 1; 2])] =
    (Return None, [Data (bs [1; 2])], [InvalidMessageLength 3]) /\
  (read_dlt_packet [Data (bs [0; 0; 0; 3; 1; 2])]).1.1 = (read_dlt_packet []).1.1.
Proof.
  apply (invalid_length_returns_none
           [Data (bs [0; 0; 0; 3; 1; 2])] (bs [0; 0; 0; 3]) [Data (bs [1; 2])] 3).
  - reflexivity.
  - reflexivity.
  - reflexivity.
  - lia.
Defined.

(** C3 (as stated) fails: for the header [00 00 00 02] the reader returns
    [None], exactly what it returns on a closed stream, and the loop of
    [main] reports a connection closed by the daemon. *)
Lemma invalid_length_not_distinct_from_end_of_stream :
  (read_dlt_packet [Data (bs [0; 0; 0; 2])]).1.1 = Return None /\
  (read_dlt_packet []).1.1 = Return None /\
  main_loop [Data (bs [0; 0; 0; 2])] 0 [] =
    (0, [], [InvalidMessageLength 2; ConnectionClosedByDaemon]) /\
  main_loop [] 0 [] = (0, [], [ConnectionClosedByDaemon]).
Proof. vm_compute. done. Qed.

(** C9 fails on a header that arrives in two pieces: [recv(4)] is called
    once, its two bytes are taken for the end of the stream, and [None] is
    returned although the stream goes on to deliver a whole 10-byte frame. *)
Lemma short_header_read_taken_for_end_of_stream :
  readable ([Data (bs [0; 0]); Data (bs [0; 10; 1; 2; 3; 4; 5; 6])] : socket)
    = bs [0; 0; 0; 10; 1; 2; 3; 4; 5; 6] /\
  frame_invariant (bs [0; 0; 0; 10; 1; 2; 3; 4; 5; 6]) /\
  read_dlt_packet
    [Data (bs [0; 0]); Data (bs [0; 10; 1; 2; 3; 4; 5; 6])] =
    (Return None, [Data (bs [0; 10; 1; 2; 3; 4; 5; 6])], []) /\
  main_loop [Data (bs [0; 0]); Data (bs [0; 10; 1; 2; 3; 4; 5; 6])] 0 [] =
    (0, [Data (bs [0; 10; 1; 2; 3; 4; 5; 6])], [ConnectionClosedByDaemon]).
Proof.
  split; [reflexivity|]. split; [|vm_compute; done].
  exists 10. vm_compute. repeat split; discriminate.
Qed.

End FrameReader.

(** * Properties of the ingest task *)

Section Ingest.
Import Bridge.

Lemma read_loop_eq reader :
  read_loop reader =
  match read 4096 reader with
  | (Raise e, _) => ([], Some e)
  | (Return data, reader') =>
      if decide (data = []) then ([Print DaemonConnectionClosed], None)
      else prepend [Put data; Print (Received data)] (read_loop reader')
  end.
Proof.
  funelim (read_loop reader).
  - match goal with H : read _ _ = _ |- _ => rewrite H end. reflexivity.
  - match goal with H : read _ _ = _ |- _ => rewrite H end.
    rewrite decide_True by done. reflexivity.
  - match goal with H : read _ _ = _ |- _ => rewrite H end.
    rewrite decide_False by done. reflexivity.
Qed.

Lemma read_upto_stream_end {E} n (s s' : stream E) chunk :
  0 < n -> readable s <> [] -> read_upto n s = (Return chunk, s') ->
  stream_end s' = stream_end s.
Proof.
  intros Hn Hr. destruct s as [|[[|b c]|e] rest]; simpl in Hr; try done.
  simpl read_upto. case_decide as Hle; intros [= <- <-]; [done|].
  destruct (drop (Z.to_nat n) (b :: c)) as [|d ds] eqn:Hd; [|done].
  apply (f_equal length) in Hd. rewrite length_drop in Hd.
  unfold len in Hle. simpl in *. lia.
Qed.

Lemma readable_nil_cases {E} (s : stream E) :
  readable s = [] ->
  s = [] \/ (exists rest, s = Data [] :: rest) \/ (exists e rest, s = Fault e :: rest).
Proof. destruct s as [|[[|b c]|e] rest]; simpl; intros; try done; eauto. Qed.

(** The inner loop puts in the queue what each [read] returned, as it is. *)
Lemma read_loop_spec reader :
  concat (puts (read_loop reader).1) = readable reader /\
  Forall (fun data => data <> [] /\ len data <= 4096) (puts (read_loop reader).1) /\
  (read_loop reader).2 = stream_end reader /\
  Forall quiet (read_loop reader).1.
Proof.
  remember (weight reader) as k eqn:Hk. revert reader Hk.
  induction (lt_wf k) as [k _ IH]. intros reader ->.
  rewrite read_loop_eq. unfold read.
  destruct (decide (readable reader = [])) as [Hnil|Hne].
  - destruct (readable_nil_cases reader Hnil) as [->|[[rest ->]|(e & rest & ->)]];
      simpl; rewrite ?Hnil; repeat split; repeat constructor.
  - destruct (read_upto_readable 4096 reader ltac:(lia) Hne)
      as (data & reader' & Hread & Hd & Hsplit).
    pose proof (read_upto_at_most 4096 _ _ _ ltac:(lia) Hread) as Hle.
    pose proof (read_upto_stream_end 4096 _ _ _ ltac:(lia) Hne Hread) as Hend.
    assert (reader <> []) as Hr by (intros ->; done).
    pose proof (read_upto_weight_lt 4096 reader ltac:(lia) Hr) as Hw.
    rewrite Hread in *. rewrite decide_False by done. simpl in Hw.
    destruct (IH _ Hw reader' eq_refl) as (Hcat & Hall & Hraised & Hquiet).
    unfold prepend. simpl. rewrite Hcat, <- Hsplit, Hraised, Hend.
    repeat split; try done.
    + constructor; [done|]. done.
    + repeat constructor. done.
Qed.

Lemma puts_app (l k : list action) : puts (l ++ k) = puts l ++ puts k.
Proof. apply omap_app. Qed.

Lemma puts_released writer : puts (released writer) = [].
Proof. by destruct writer. Qed.

(** The two kinds of turn of the outer loop, with what ends them. *)
Lemma read_from_dlt_loop_raises e script writer opened :
  read_from_dlt_loop (OpenRaises e :: script) writer opened =
  [Print Connecting; OpenConnection None] ++ (handler e).1 ++ released writer ++
  (if (handler e).2 then read_from_dlt_loop script writer opened else []).
Proof. simpl. destruct (handler e); destruct writer; reflexivity. Qed.

Lemma read_from_dlt_loop_opened reader script writer opened :
  read_from_dlt_loop (Opened reader :: script) writer opened =
  [Print Connecting; OpenConnection (Some opened); Print ConnectedToDaemon] ++
  (read_loop reader).1 ++
  match stream_end reader with
  | None => CloseWriter opened :: read_from_dlt_loop script (Some opened) (S opened)
  | Some CancelledError => [CloseWriter opened]
  | Some ConnectionRefusedError =>
      [Print ConnectionRefused; Sleep 5; CloseWriter opened;
       Propagate ConnectionRefusedError]
  | Some OtherException =>
      [Print ErrorLine; Sleep 5; CloseWriter opened; Propagate OtherException]
  end.
Proof.
  simpl. destruct (read_loop_spec reader) as (_ & _ & Hraised & _).
  destruct (read_loop reader) as [body raised]. simpl in *. subst raised.
  destruct (stream_end reader) as [[]|]; reflexivity.
Qed.

Lemma puts_read_from_dlt_loop script writer opened :
  concat (puts (read_from_dlt_loop script writer opened)) = upstream_bytes script /\
  Forall (fun data => data <> [] /\ len data <= 4096)
         (puts (read_from_dlt_loop script writer opened)).
Proof.
  revert writer opened. induction script as [|[e|reader] script IH]; intros writer opened.
  - split; [reflexivity|constructor].
  - rewrite read_from_dlt_loop_raises, !puts_app, puts_released.
    destruct e; simpl; [split; [reflexivity|constructor]|apply IH|apply IH].
  - rewrite read_from_dlt_loop_opened.
    destruct (read_loop_spec reader) as (Hcat & Hall & _ & _).
    destruct (IH (Some opened) (S opened)) as [IHc IHa].
    rewrite !puts_app, !concat_app, Hcat. simpl upstream_bytes.
    destruct (stream_end reader) as [[]|]; simpl; rewrite ?app_nil_r;
      try (split; [reflexivity|exact Hall]).
    change (omap _ ?t) with (puts t). rewrite IHc.
    split; [reflexivity|]. by apply Forall_app.
Qed.



(** Cutting a list at an element that its first part does not hold. *)
Lemma split_past {A} (x : A) (l1 l2 before after : list A) :
  x ∉ l1 -> l1 ++ l2 = before ++ x :: after ->
  exists mid, before = l1 ++ mid /\ l2 = mid ++ x :: after.
Proof.
  revert before. induction l1 as [|a l1 IH]; intros before Hx Heq.
  - exists before. done.
  - destruct before as [|b before]; simpl in Heq; injection Heq as -> Heq.
    + exfalso. apply Hx. left.
    + destruct (IH before) as (mid & -> & ->); [|done|eauto].
      intros Hin. apply Hx. by right.
Qed.














End Ingest.

(** * Properties of the broadcaster *)

Section Broadcaster.
Import Bridge.

(** Unfolding one move down to the state it builds. *)
Ltac unfold_step H :=
  cbv [step broadcast_messages message_queue_put websocket_handler_add
       websocket_handler_discard] in H; simpl in H.

Lemma next_send_cons data ws todo : next_send data (ws :: todo) = Sending data (ws :: todo).
Proof. reflexivity. Qed.

Lemma enumerates_elem order clients ws :
  enumerates order clients -> ws ∈ order <-> ws ∈ clients.
Proof. intros [_ <-]. by rewrite elem_of_list_to_set. Qed.

Lemma enumerates_nil order : enumerates order ∅ <-> order = [].
Proof.
  split.
  - intros [_ Hs]. destruct order as [|ws order]; [done|].
    exfalso. apply (not_elem_of_empty (C := gset nat) ws).
    rewrite <- Hs. apply elem_of_list_to_set. left.
  - intros ->. split; [constructor|done].
Qed.

(** Well-formedness is kept by every step. *)
Lemma step_well_formed s l s' :
  well_formed s -> step s l = Some s' -> well_formed s'.
Proof.
  intros [Hc Hp] Hstep. destruct l; unfold_step Hstep.
  - injection Hstep as <-. done.
  - injection Hstep as <-. split; simpl.
    + intros ws [Hin| ->%elem_of_singleton]%elem_of_union; [apply Hc in Hin|]; lia.
    + destruct (pc s); [done| |done]. destruct Hp as (? & ? & Ht).
      repeat split; try done. intros ws' Hin. apply Ht in Hin. lia.
  - injection Hstep as <-. split; simpl; [|done].
    intros ws' [Hin _]%elem_of_difference. by apply Hc.
  - destruct (pc s) eqn:Hpc; try done.
    destruct (message_queue s) as [|data queue]; [done|].
    case_decide as Hen; [|done]. case_decide; injection Hstep as <-.
    + split; simpl; [done|].
      destruct order as [|ws order]; [done|]. simpl.
      repeat split; [apply Hen|done|].
      intros ws' Hin. apply Hc. by apply (enumerates_elem _ _ _ Hen).
    + split; simpl; done.
  - destruct (pc s) as [|data [|ws todo]|] eqn:Hpc; try done.
    injection Hstep as <-. split; simpl; [done|].
    destruct Hp as (Hnd & _ & Ht).
    destruct todo as [|ws' todo]; [done|]. simpl.
    repeat split; [by apply NoDup_cons in Hnd as [_ ?]|done|].
    intros ws'' Hin. apply Ht. by right.
  - destruct (pc s) as [|data [|ws todo]|] eqn:Hpc; try done.
    injection Hstep as <-. split; simpl.
    + intros ws' [Hin _]%elem_of_difference. by apply Hc.
    + destruct Hp as (Hnd & _ & Ht).
      destruct todo as [|ws' todo]; [done|]. simpl.
      repeat split; [by apply NoDup_cons in Hnd as [_ ?]|done|].
      intros ws'' Hin. apply Ht. by right.
  - destruct (pc s); try done; injection Hstep as <-; split; done.
Qed.

Lemma run_well_formed s ls s' :
  well_formed s -> run s ls = Some s' -> well_formed s'.
Proof.
  revert s. induction ls as [|l ls IH]; intros s Hwf Hrun; simpl in Hrun.
  - by injection Hrun as <-.
  - destruct (step s l) as [s1|] eqn:Hstep; [|done].
    eapply IH; [|done]. by eapply step_well_formed.
Qed.

Lemma initial_well_formed : well_formed initial.
Proof. split; [|done]. by intros ws ?%not_elem_of_empty. Qed.

Lemma in_flight_next_send ws data todo :
  match next_send data todo with
  | Sending data' todo' => if decide (ws ∈ todo') then [data'] else []
  | _ => []
  end = if decide (ws ∈ todo) then [data] else [].
Proof.
  destruct todo as [|w todo]; [|done].
  destruct (decide (ws ∈ [])) as [Hin|]; [by apply elem_of_nil in Hin|done].
Qed.

Lemma received_snoc (ws w : nat) (sent_before : list (nat * bytes)) (data : bytes) :
  omap (fun '(w', d) => if decide (w' = ws) then Some d else None)
       (sent_before ++ [(w, data)]) =
  omap (fun '(w', d) => if decide (w' = ws) then Some d else None) sent_before ++
  (if decide (w = ws) then [data] else []).
Proof. rewrite omap_app. simpl. by case_decide. Qed.

(** Once the task is finished, nothing is sent any more. *)
Lemma stopped_run s ls s' :
  pc s = Stopped -> run s ls = Some s' -> pc s' = Stopped /\ sent s' = sent s.
Proof.
  revert s. induction ls as [|l ls IH]; intros s Hpc Hrun; simpl in Hrun.
  - by injection Hrun as <-.
  - destruct (step s l) as [s1|] eqn:Hstep; [|done].
    assert (pc s1 = Stopped /\ sent s1 = sent s) as [Hpc1 Hs1].
    { destruct l; unfold_step Hstep; rewrite ?Hpc in Hstep; try done;
        by injection Hstep as <-. }
    destruct (IH s1 Hpc1 Hrun) as [? ?]. split; [done|congruence].
Qed.

(** One step, seen from a websocket that stays registered: what it has
    received, what it is still to be sent in this pass and what waits in the
    queue make up the same sequence before and after, but for the data the
    step puts at its end. *)
Lemma step_keeps_order ws s l s' :
  well_formed s -> step s l = Some s' ->
  ws ∈ websocket_clients s -> ws ∈ websocket_clients s' ->
  (pc s' <> Stopped ->
   received ws s' ++ in_flight ws s' ++ message_queue s' =
   (received ws s ++ in_flight ws s ++ message_queue s) ++ queue_puts [l]) /\
  (pc s' = Stopped -> received ws s' = received ws s).
Proof.
  intros [Hc Hp] Hstep Hin Hin'. unfold received, in_flight.
  destruct l; unfold_step Hstep.
  - injection Hstep as <-. simpl. split; [|done]. intros _.
    by rewrite <- !app_assoc.
  - injection Hstep as <-. simpl. split; [|done]. intros _. by rewrite app_nil_r.
  - injection Hstep as <-. simpl. split; [|done]. intros _. by rewrite app_nil_r.
  - destruct (pc s) eqn:Hpc; try done.
    destruct (message_queue s) as [|data queue]; [done|].
    case_decide as Hen; [|done]. case_decide as Hne; injection Hstep as <-; simpl in *.
    + split; [|by destruct order].
      intros _. rewrite in_flight_next_send, app_nil_r.
      rewrite decide_True by (by apply (enumerates_elem _ _ _ Hen)). done.
    + exfalso. rewrite Hne in Hin. by apply not_elem_of_empty in Hin.
  - destruct (pc s) as [|data [|w todo]|] eqn:Hpc; try done.
    injection Hstep as <-. simpl in *. destruct Hp as (Hnd & _ & _).
    apply NoDup_cons in Hnd as [Hw Hnd].
    split; [|by destruct todo].
    intros _. rewrite in_flight_next_send, received_snoc, app_nil_r.
    destruct (decide (w = ws)) as [->|Hneq].
    + rewrite (decide_True (P := ws ∈ ws :: todo)) by left.
      rewrite (decide_False (P := ws ∈ todo)) by done.
      by rewrite <- !app_assoc.
    + rewrite app_nil_r.
      destruct (decide (ws ∈ todo)) as [Ht|Ht].
      * rewrite (decide_True (P := ws ∈ w :: todo)) by (by right). done.
      * rewrite (decide_False (P := ws ∈ w :: todo)); [done|].
        intros [?|?]%elem_of_cons; [congruence|done].
  - destruct (pc s) as [|data [|w todo]|] eqn:Hpc; try done.
    injection Hstep as <-. simpl in *. destruct Hp as (Hnd & _ & _).
    split; [|by destruct todo].
    intros _. rewrite in_flight_next_send, app_nil_r.
    assert (w <> ws) as Hneq.
    { intros ->. apply elem_of_difference in Hin' as [_ Hne].
      apply Hne. by apply elem_of_singleton. }
    destruct (decide (ws ∈ todo)) as [Ht|Ht].
    + rewrite (decide_True (P := ws ∈ w :: todo)) by (by right). done.
    + rewrite (decide_False (P := ws ∈ w :: todo)); [done|].
      intros [?|?]%elem_of_cons; [congruence|done].
  - destruct (pc s); try done; injection Hstep as <-; simpl; split; done.
Qed.

Lemma queue_puts_cons l ls : queue_puts (l :: ls) = queue_puts [l] ++ queue_puts ls.
Proof. by destruct l. Qed.

Lemma run_keeps_order ws s ls s' :
  well_formed s -> run s ls = Some s' ->
  always (fun s => ws ∈ websocket_clients s) s ls ->
  received ws s' `prefix_of`
    received ws s ++ in_flight ws s ++ message_queue s ++ queue_puts ls /\
  (pc s' <> Stopped ->
   received ws s' ++ in_flight ws s' ++ message_queue s' =
   received ws s ++ in_flight ws s ++ message_queue s ++ queue_puts ls).
Proof.
  revert s. induction ls as [|l ls IH]; intros s Hwf Hrun Halways; simpl in Hrun.
  - injection Hrun as <-. simpl. rewrite app_nil_r. split; [|done].
    by apply prefix_app_r.
  - destruct Halways as [Hin Halways].
    destruct (step s l) as [s1|] eqn:Hstep; [|done].
    assert (ws ∈ websocket_clients s1) as Hin1 by (by destruct ls; destruct Halways).
    destruct (step_keeps_order ws s l s1 Hwf Hstep Hin Hin1) as [Hgo Hstop].
    destruct (decide (pc s1 = Stopped)) as [Hpc1|Hpc1].
    + destruct (stopped_run s1 ls s' Hpc1 Hrun) as [Hpc' Hsent].
      split; [|done].
      unfold received at 1. rewrite Hsent. fold (received ws s1).
      rewrite (Hstop Hpc1). by apply prefix_app_r.
    + destruct (IH s1 (step_well_formed _ _ _ Hwf Hstep) Hrun Halways) as [Hpre Heq].
      assert (received ws s1 ++ in_flight ws s1 ++ message_queue s1 ++ queue_puts ls =
              received ws s ++ in_flight ws s ++ message_queue s ++ queue_puts (l :: ls))
        as Hinput.
      { pose proof (Hgo Hpc1) as Hs.
        rewrite (queue_puts_cons l ls).
        rewrite !app_assoc. rewrite !app_assoc in Hs. by rewrite Hs. }
      rewrite <- Hinput. done.
Qed.

Lemma run_app s ls ks :
  run s (ls ++ ks) = match run s ls with Some s1 => run s1 ks | None => None end.
Proof.
  revert s. induction ls as [|l ls IH]; intros s; simpl; [done|].
  destruct (step s l); [apply IH|done].
Qed.

Lemma always_app P s ls ks s1 :
  run s ls = Some s1 -> always P s ls -> always P s1 ks -> always P s (ls ++ ks).
Proof.
  revert s. induction ls as [|l ls IH]; intros s Hrun Hls Hks; simpl in Hrun.
  - by injection Hrun as ->.
  - destruct Hls as [Hs Hls]. split; [done|].
    destruct (step s l) as [s2|]; [by apply IH|done].
Qed.

Lemma always_last P s ls s' : run s ls = Some s' -> always P s ls -> P s'.
Proof.
  revert s. induction ls as [|l ls IH]; intros s Hrun Hls; simpl in Hrun.
  - injection Hrun as <-. by destruct Hls.
  - destruct Hls as [_ Hls]. destruct (step s l) as [s1|]; [by eapply IH|done].
Qed.

Lemma queue_puts_app ls ks : queue_puts (ls ++ ks) = queue_puts ls ++ queue_puts ks.
Proof. apply omap_app. Qed.

Lemma queue_puts_QueuePut entries : queue_puts (map QueuePut entries) = entries.
Proof. induction entries as [|data entries IH]; simpl; [done|]. by rewrite IH. Qed.

Lemma queue_puts_keeps_clients ls :
  Forall (fun l => keeps_clients l /\ not_a_put l) ls -> queue_puts ls = [].
Proof.
  induction 1 as [|l ls [_ Hl] _ IH]; [done|]. by destruct l.
Qed.

(** Puts and returning sends leave every registered websocket registered. *)
Lemma step_keeps_clients s l s' :
  keeps_clients l -> step s l = Some s' -> websocket_clients s' = websocket_clients s.
Proof.
  intros Hl Hstep. destruct l; try done; unfold_step Hstep.
  - by injection Hstep as <-.
  - destruct (pc s); try done. destruct (message_queue s); [done|].
    case_decide; [|done]. by case_decide; injection Hstep as <-.
  - destruct (pc s) as [|data [|w todo]|]; try done. by injection Hstep as <-.
Qed.

Lemma always_registered ws s ls :
  Forall keeps_clients ls -> ws ∈ websocket_clients s ->
  always (fun s => ws ∈ websocket_clients s) s ls.
Proof.
  intros Hls. revert s. induction Hls as [|l ls Hl _ IH]; intros s Hin; [done|].
  split; [done|]. destruct (step s l) as [s1|] eqn:Hstep; [|done].
  apply IH. by rewrite (step_keeps_clients s l s1 Hl Hstep).
Qed.

(** The puts of [read_from_dlt] are never refused. *)
Lemma run_puts entries s :
  exists s1,
    run s (map QueuePut entries) = Some s1 /\ pc s1 = pc s /\
    websocket_clients s1 = websocket_clients s.
Proof.
  revert s. induction entries as [|data entries IH]; intros s; simpl; [by exists s|].
  destruct (IH (message_queue_put data s)) as (s1 & Hrun & Hpc & Hc). by exists s1.
Qed.

(** The elements of the set are an iteration order of it. *)
Lemma enumerates_elements (clients : gset nat) : enumerates (elements clients) clients.
Proof. split; [apply NoDup_elements|apply list_to_set_elements_L]. Qed.

(** The sends of a pass are all enabled; when they return, the broadcaster
    is back in [get()]. *)
Lemma run_sends_return data todo s :
  pc s = next_send data todo ->
  exists s1,
    run s (replicate (length todo) SendReturns) = Some s1 /\
    pc s1 = Getting /\ message_queue s1 = message_queue s /\
    websocket_clients s1 = websocket_clients s.
Proof.
  revert s. induction todo as [|w todo IH]; intros s Hpc; simpl.
  - by exists s.
  - cbv [broadcast_messages]. rewrite Hpc. simpl.
    match goal with |- context [run ?st _] => destruct (IH st eq_refl) as (s1 & ? & ? & ? & ?) end.
    by exists s1.
Qed.

(** One pass per entry of the queue: [get()] returns as soon as the queue
    holds something, whatever the set of websockets. *)
Lemma run_passes (clients : gset nat) queue s :
  pc s = Getting -> message_queue s = queue -> websocket_clients s = clients ->
  exists s1,
    run s (concat (map (fun _ => Get (elements clients) ::
                                 replicate (length (elements clients)) SendReturns)
                       queue)) = Some s1 /\
    pc s1 = Getting /\ message_queue s1 = [] /\ websocket_clients s1 = clients.
Proof.
  revert s. induction queue as [|data queue IH]; intros s Hpc Hq Hc.
  - by exists s.
  - cbn [map concat]. rewrite <- app_comm_cons. cbn [run].
    assert (exists s1, step s (Get (elements clients)) = Some s1 /\
                       pc s1 = next_send data (elements clients) /\
                       message_queue s1 = queue /\ websocket_clients s1 = clients)
      as (s1 & Hstep & Hpc1 & Hq1 & Hc1).
    { cbv [step broadcast_messages]. rewrite Hpc, Hq, Hc.
      rewrite decide_True by apply enumerates_elements.
      case_decide as Hne; [by eexists|].
      eexists. split; [done|]. simpl. split; [|done].
      assert (clients = ∅) as -> by (destruct (decide (clients = ∅)); [done|by destruct Hne]).
      by rewrite elements_empty. }
    rewrite Hstep, run_app.
    destruct (run_sends_return data (elements clients) s1 Hpc1) as (s2 & -> & Hpc2 & Hq2 & Hc2).
    apply IH; congruence.
Qed.

Lemma flush_keeps_clients s : Forall (fun l => keeps_clients l /\ not_a_put l) (flush s).
Proof.
  unfold flush. apply Forall_app. split.
  - destruct (pc s); try constructor. by apply Forall_replicate.
  - apply Forall_concat, Forall_map, Forall_true. intros _.
    constructor; [done|]. by apply Forall_replicate.
Qed.

(** The broadcaster is never stuck: from any state in which it runs, the
    moves of [flush] are enabled one after the other and leave it in
    [get()] on an empty queue. *)
Lemma run_flush s :
  well_formed s -> pc s <> Stopped ->
  exists s1,
    run s (flush s) = Some s1 /\ pc s1 = Getting /\ message_queue s1 = [] /\
    websocket_clients s1 = websocket_clients s.
Proof.
  intros [_ Hp] Hpc. unfold flush. rewrite run_app.
  assert (exists s0,
            run s match pc s with
                  | Sending _ todo => replicate (length todo) SendReturns
                  | _ => []
                  end = Some s0 /\
            pc s0 = Getting /\ message_queue s0 = message_queue s /\
            websocket_clients s0 = websocket_clients s)
    as (s0 & -> & Hpc0 & Hq0 & Hc0).
  { destruct (pc s) as [|data todo|] eqn:Hpcs; [by exists s| |done].
    apply (run_sends_return data todo). destruct Hp as (_ & Hne & _).
    by destruct todo. }
  destruct (run_passes (websocket_clients s) (message_queue s) s0 Hpc0 Hq0 Hc0)
    as (s1 & Hrun & ? & ? & ?).
  by exists s1.
Qed.

Lemma run_flush_delivers ws s :
  well_formed s -> pc s <> Stopped -> ws ∈ websocket_clients s ->
  exists s1,
    run s (flush s) = Some s1 /\ pc s1 = Getting /\ message_queue s1 = [] /\
    received ws s1 = received ws s ++ in_flight ws s ++ message_queue s.
Proof.
  intros Hwf Hpc Hin. destruct (run_flush s Hwf Hpc) as (s1 & Hrun & Hpc1 & Hq1 & _).
  exists s1. repeat split; try done.
  pose proof (flush_keeps_clients s) as Hflush.
  destruct (run_keeps_order ws s (flush s) s1 Hwf Hrun) as [_ Heq].
  { apply always_registered; [|done]. eapply Forall_impl; [exact Hflush|]. by intros l [? _]. }
  rewrite (queue_puts_keeps_clients _ Hflush), app_nil_r in Heq.
  rewrite <- Heq by (by rewrite Hpc1).
  unfold in_flight. by rewrite Hpc1, Hq1, !app_nil_r.
Qed.

(** When every read returns one frame, the entries of the queue are the
    frames. *)
Lemma puts_read_loop_frames frames :
  Forall (fun frame => frame_invariant frame /\ len frame <= 4096) frames ->
  puts (read_loop (map Data frames)).1 = frames.
Proof.
  induction 1 as [|frame frames [(n & Hlf & _) Hle] _ IH]; rewrite read_loop_eq; simpl.
  - done.
  - rewrite decide_True by done.
    rewrite decide_False by (intros ->; by simpl in Hlf).
    simpl. by rewrite IH.
Qed.

Lemma puts_read_from_dlt_frames frames :
  Forall (fun frame => frame_invariant frame /\ len frame <= 4096) frames ->
  puts (read_from_dlt [Opened (map Data frames)]) = frames.
Proof.
  intros Hframes. unfold read_from_dlt. rewrite read_from_dlt_loop_opened.
  rewrite !puts_app, (puts_read_loop_frames frames Hframes).
  destruct (stream_end (map Data frames)) as [[]|]; simpl; by rewrite app_nil_r.
Qed.

(** C5: the entries that [read_from_dlt] puts in the queue reach a
    websocket that stays registered, and in the order in which they were
    read.  They are delivered: the puts are never refused and the broadcaster
    is never stuck, so there is a run that puts them all and sends them all.
    They are in order: in every run, what the websocket has received is at
    every moment a prefix of the input sequence, nothing being skipped or
    swapped, it is the whole of it once the broadcaster waits again on an
    empty queue, and until then the moves of the broadcaster that complete
    the delivery are enabled.  The input, one entry after the other, is the
    bytes read from the daemon; when each read returns one frame, it is the
    sequence of the frames. *)
Theorem frames_delivered_in_order script ws s :
  well_formed s ->
  (pc s <> Stopped -> ws ∈ websocket_clients s ->
   exists ls s',
     queue_puts ls = puts (read_from_dlt script) /\
     run s ls = Some s' /\
     always (fun s => ws ∈ websocket_clients s) s ls /\
     pc s' = Getting /\ message_queue s' = [] /\
     received ws s' =
     received ws s ++ in_flight ws s ++ message_queue s ++ puts (read_from_dlt script)) /\
  (forall ls s',
     run s ls = Some s' ->
     queue_puts ls = puts (read_from_dlt script) ->
     always (fun s => ws ∈ websocket_clients s) s ls ->
     received ws s' `prefix_of`
       received ws s ++ in_flight ws s ++ message_queue s ++ puts (read_from_dlt script) /\
     (pc s' <> Stopped ->
      received ws s' ++ in_flight ws s' ++ message_queue s' =
      received ws s ++ in_flight ws s ++ message_queue s ++ puts (read_from_dlt script)) /\
     (pc s' = Getting -> message_queue s' = [] ->
      received ws s' =
      received ws s ++ in_flight ws s ++ message_queue s ++ puts (read_from_dlt script)) /\
     (pc s' <> Stopped ->
      exists s'',
        run s' (flush s') = Some s'' /\ pc s'' = Getting /\ message_queue s'' = [] /\
        received ws s'' =
        received ws s ++ in_flight ws s ++ message_queue s ++
        puts (read_from_dlt script))) /\
  concat (puts (read_from_dlt script)) = upstream_bytes script /\
  (forall frames,
     script = [Opened (map Data frames)] ->
     Forall (fun frame => frame_invariant frame /\ len frame <= 4096) frames ->
     puts (read_from_dlt script) = frames).
Proof.
  intros Hwf.
  assert (forall ls s',
            run s ls = Some s' ->
            queue_puts ls = puts (read_from_dlt script) ->
            always (fun s => ws ∈ websocket_clients s) s ls ->
            pc s' <> Stopped ->
            exists s'',
              run s' (flush s') = Some s'' /\ pc s'' = Getting /\ message_queue s'' = [] /\
              received ws s'' =
              received ws s ++ in_flight ws s ++ message_queue s ++
              puts (read_from_dlt script)) as Hcomplete.
  { intros ls s' Hrun Hputs Halways Hpc'.
    destruct (run_keeps_order ws s ls s' Hwf Hrun Halways) as [_ Heq].
    destruct (run_flush_delivers ws s' (run_well_formed _ _ _ Hwf Hrun) Hpc'
                (always_last _ _ _ _ Hrun Halways)) as (s'' & ? & ? & ? & Hrecv).
    exists s''. repeat split; try done.
    by rewrite Hrecv, (Heq Hpc'), Hputs. }
  split; [|split; [|split]].
  - intros Hpc Hin.
    destruct (run_puts (puts (read_from_dlt script)) s) as (s1 & Hrun1 & Hpc1 & Hc1).
    assert (always (fun s => ws ∈ websocket_clients s) s
              (map QueuePut (puts (read_from_dlt script)))) as Halways1.
    { apply always_registered; [|done]. by apply Forall_map, Forall_true. }
    destruct (Hcomplete _ s1 Hrun1 (queue_puts_QueuePut _) Halways1)
      as (s'' & Hrun2 & ? & ? & ?); [congruence|].
    exists (map QueuePut (puts (read_from_dlt script)) ++ flush s1), s''.
    pose proof (flush_keeps_clients s1) as Hflush.
    repeat split; try done.
    + by rewrite queue_puts_app, queue_puts_QueuePut,
        (queue_puts_keeps_clients _ Hflush), app_nil_r.
    + by rewrite run_app, Hrun1.
    + apply (always_app _ _ _ _ s1); [done|done|].
      apply always_registered.
      * eapply Forall_impl; [exact Hflush|]. by intros l [? _].
      * by apply (always_last _ _ _ _ Hrun1 Halways1).
  - intros ls s' Hrun Hputs Halways.
    destruct (run_keeps_order ws s ls s' Hwf Hrun Halways) as [Hpre Heq].
    rewrite Hputs in Hpre, Heq.
    split; [done|]. split; [done|]. split; [|by eapply Hcomplete].
    intros Hpc Hq. rewrite <- Heq by (by rewrite Hpc).
    unfold in_flight. rewrite Hpc, Hq. by rewrite !app_nil_r.
  - apply puts_read_from_dlt_loop.
  - intros frames -> Hframes. by apply puts_read_from_dlt_frames.
Qed.

Lemma frames_delivered_in_order_witness :
  (pc two_clients <> Stopped -> 0%nat ∈ websocket_clients two_clients ->
   exists ls s',
     queue_puts ls = puts (read_from_dlt frame_per_read) /\
     run two_clients ls = Some s' /\
     always (fun s => 0%nat ∈ websocket_clients s) two_clients ls /\
     pc s' = Getting /\ message_queue s' = [] /\
     received 0 s' =
     received 0 two_clients ++ in_flight 0 two_clients ++ message_queue two_clients ++
     puts (read_from_dlt frame_per_read)) /\
  (forall ls s',
     run two_clients ls = Some s' ->
     queue_puts ls = puts (read_from_dlt frame_per_read) ->
     always (fun s => 0%nat ∈ websocket_clients s) two_clients ls ->
     received 0 s' `prefix_of`
       received 0 two_clients ++ in_flight 0 two_clients ++ message_queue two_clients ++
       puts (read_from_dlt frame_per_read) /\
     (pc s' <> Stopped ->
      received 0 s' ++ in_flight 0 s' ++ message_queue s' =
      received 0 two_clients ++ in_flight 0 two_clients ++ message_queue two_clients ++
      puts (read_from_dlt frame_per_read)) /\
     (pc s' = Getting -> message_queue s' = [] ->
      received 0 s' =
      received 0 two_clients ++ in_flight 0 two_clients ++ message_queue two_clients ++
      puts (read_from_dlt frame_per_read)) /\
     (pc s' <> Stopped ->
      exists s'',
        run s' (flush s') = Some s'' /\ pc s'' = Getting /\ message_queue s'' = [] /\
        received 0 s'' =
        received 0 two_clients ++ in_flight 0 two_clients ++ message_queue two_clients ++
        puts (read_from_dlt frame_per_read))) /\
  concat (puts (read_from_dlt frame_per_read)) = upstream_bytes frame_per_read /\
  (forall frames,
     frame_per_read = [Opened (map Data frames)] ->
     Forall (fun frame => frame_invariant frame /\ len frame <= 4096) frames ->
     puts (read_from_dlt frame_per_read) = frames).
Proof.
  apply (frames_delivered_in_order frame_per_read 0%nat two_clients).
  split; [|exact I]. simpl. intros ws Hin.
  apply elem_of_union in Hin as [Hin|Hin]; apply elem_of_singleton in Hin; lia.
Defined.

(** A websocket that was accepted and is no longer registered never comes
    back: the handler registers each websocket once, when it is accepted. *)
Lemma step_absent_stays s l s' (ws : nat) :
  (ws < accepted s)%nat -> ws ∉ websocket_clients s -> step s l = Some s' ->
  (ws < accepted s')%nat /\ ws ∉ websocket_clients s'.
Proof.
  intros Hacc Hout Hstep. destruct l; unfold_step Hstep.
  - by injection Hstep as <-.
  - injection Hstep as <-. simpl. split; [lia|].
    intros [Hin| ->%elem_of_singleton]%elem_of_union; [done|lia].
  - injection Hstep as <-. simpl. split; [done|].
    intros [Hin _]%elem_of_difference. done.
  - destruct (pc s); try done. destruct (message_queue s); [done|].
    case_decide; [|done]. by case_decide; injection Hstep as <-.
  - destruct (pc s) as [|data [|w todo]|]; try done. by injection Hstep as <-.
  - destruct (pc s) as [|data [|w todo]|]; try done. injection Hstep as <-.
    simpl. split; [done|]. intros [Hin _]%elem_of_difference. done.
  - by destruct (pc s); try done; injection Hstep as <-.
Qed.

Lemma run_absent_stays s ls s' (ws : nat) :
  (ws < accepted s)%nat -> ws ∉ websocket_clients s -> run s ls = Some s' ->
  ws ∉ websocket_clients s'.
Proof.
  revert s. induction ls as [|l ls IH]; intros s Hacc Hout Hrun; simpl in Hrun.
  - by injection Hrun as <-.
  - destruct (step s l) as [s1|] eqn:Hstep; [|done].
    destruct (step_absent_stays s l s1 ws Hacc Hout Hstep) as [? ?]. by eapply IH.
Qed.

Lemma with_result_nil r order : with_result r order [] = [].
Proof. unfold with_result. by destruct order. Qed.

(** The rest of a pass, from any point of it. *)
Lemma rest_of_pass s data todo ls s' :
  pc s = next_send data todo ->
  (forall ws, ws ∈ todo -> (ws < accepted s)%nat) ->
  run s ls = Some s' -> Forall within_pass ls ->
  (length (send_results ls) <= length todo)%nat /\
  pc s' = next_send data (drop (length (send_results ls)) todo) /\
  sent s' = sent s ++
            map (fun ws => (ws, data)) (with_result true todo (send_results ls)) /\
  (forall ws, ws ∈ with_result false todo (send_results ls) ->
              ws ∉ websocket_clients s').
Proof.
  revert s todo. induction ls as [|l ls IH]; intros s todo Hpc Hacc Hrun Hpass;
    simpl in Hrun.
  - injection Hrun as <-. simpl. rewrite !with_result_nil, drop_0, app_nil_r.
    repeat split; [lia|done|]. intros ws Hin. by apply elem_of_nil in Hin.
  - apply Forall_cons in Hpass as [Hl Hpass].
    destruct (step s l) as [s1|] eqn:Hstep; [|done].
    destruct l; unfold_step Hstep; try done.
    + injection Hstep as <-.
      match type of Hrun with run ?st _ = _ => by apply (IH st todo) end.
    + injection Hstep as <-.
      match type of Hrun with run ?st _ = _ => apply (IH st todo); simpl; try done end.
      intros ws Hin. apply Hacc in Hin. lia.
    + injection Hstep as <-.
      match type of Hrun with run ?st _ = _ => by apply (IH st todo) end.
    + destruct todo as [|w todo]; [by rewrite Hpc in Hstep|].
      rewrite Hpc in Hstep. simpl in Hstep. injection Hstep as <-.
      match type of Hrun with run ?st _ = _ =>
        destruct (IH st todo eq_refl
                    (fun ws Hin => Hacc ws (list_elem_of_further _ _ _ Hin))
                    Hrun Hpass) as (Hlen & Hpc' & Hsent & Hfail) end.
      simpl in *. repeat split; [lia|done| |done].
      rewrite Hsent, <- app_assoc. done.
    + destruct todo as [|w todo]; [by rewrite Hpc in Hstep|].
      rewrite Hpc in Hstep. simpl in Hstep.
      match type of Hstep with Some ?st = Some _ => set (s2 := st) in * end.
      injection Hstep as <-.
      destruct (IH s2 todo eq_refl
                  (fun ws Hin => Hacc ws (list_elem_of_further _ _ _ Hin))
                  Hrun Hpass) as (Hlen & Hpc' & Hsent & Hfail).
      simpl in *. repeat split; [lia|done|done|].
      intros ws [->|Hin]%elem_of_cons; [|by apply Hfail].
      apply (run_absent_stays s2 ls s' w); [|simpl|done].
      * apply Hacc. left.
      * intros [_ Hne]%elem_of_difference. apply Hne. by apply elem_of_singleton.
Qed.

(** C6: in one pass over [list(websocket_clients)], every websocket of the
    list gets its own send.  A send that raises removes its websocket from
    [websocket_clients] and nothing else: the pass goes on with the next
    websocket, those whose send returns have been sent the data, and the
    broadcaster is never stopped by the exception. *)
Theorem failed_send_does_not_abort_pass s data queue order ls s' :
  well_formed s ->
  pc s = Getting -> message_queue s = data :: queue ->
  websocket_clients s <> ∅ ->
  run s (Get order :: ls) = Some s' -> Forall within_pass ls ->
  enumerates order (websocket_clients s) /\
  (length (send_results ls) <= length order)%nat /\
  pc s' = next_send data (drop (length (send_results ls)) order) /\
  sent s' = sent s ++
            map (fun ws => (ws, data)) (with_result true order (send_results ls)) /\
  (forall ws, ws ∈ with_result false order (send_results ls) ->
              ws ∉ websocket_clients s').
Proof.
  intros [Hc _] Hpc Hq Hne Hrun Hpass. simpl in Hrun. unfold_step Hrun.
  rewrite Hpc, Hq in Hrun.
  case_decide as Hen; [|done]. rewrite decide_True in Hrun by done.
  split; [done|].
  match type of Hrun with run ?st _ = _ => set (s1 := st) in * end.
  apply (rest_of_pass s1 data order ls s'); try done.
  intros ws Hin. apply Hc. by apply (enumerates_elem _ _ _ Hen).
Qed.

Lemma failed_send_does_not_abort_pass_witness :
  enumerates [0%nat; 1%nat] {[0%nat; 1%nat]} /\
  (length (send_results [SendRaises; ClientJoins; SendReturns]) <= 2)%nat /\
  Getting = next_send (bs [7])
              (drop (length (send_results [SendRaises; ClientJoins; SendReturns]))
                    [0%nat; 1%nat]) /\
  [(1%nat, bs [7])] =
    [] ++ map (fun ws => (ws, bs [7]))
              (with_result true [0%nat; 1%nat]
                 (send_results [SendRaises; ClientJoins; SendReturns])) /\
  (forall ws,
     ws ∈ with_result false [0%nat; 1%nat]
            (send_results [SendRaises; ClientJoins; SendReturns]) ->
     ws ∉ ({[1%nat; 2%nat]} : gset nat)).
Proof.
  refine (failed_send_does_not_abort_pass
           {| pc := Getting; message_queue := [bs [7]];
              websocket_clients := {[0%nat; 1%nat]};
              accepted := 2; sent := []; console := [] |}
           (bs [7]) [] [0%nat; 1%nat] [SendRaises; ClientJoins; SendReturns]
           {| pc := Getting; message_queue := [];
              websocket_clients := {[1%nat; 2%nat]};
              accepted := 3; sent := [(1%nat, bs [7])];
              console := [Broadcasting (bs [7]) 2; ErrorSending] |} _ _ _ _ _ _).
  - split; [|exact I]. simpl. intros ws Hin.
    apply elem_of_union in Hin as [Hin|Hin]; apply elem_of_singleton in Hin; lia.
  - reflexivity.
  - reflexivity.
  - simpl. intros Hempty.
    assert (0%nat ∈ (∅ : gset nat)) as Hin
      by (rewrite <- Hempty; apply elem_of_union_l; by apply elem_of_singleton).
    by apply not_elem_of_empty in Hin.
  - vm_compute. reflexivity.
  - repeat constructor.
Defined.

(** What is sent along a run was taken from the queue: it is the data in
    hand at the start, or it waited in the queue, or it was put there during
    the run. *)
Lemma step_sends_from_queue s l s' :
  step s l = Some s' ->
  exists new,
    sent s' = sent s ++ new /\
    (forall ws data, (ws, data) ∈ new -> data ∈ in_hand s) /\
    (forall data, data ∈ in_hand s' ++ message_queue s' ->
                  data ∈ in_hand s ++ message_queue s ++ queue_puts [l]).
Proof.
  intros Hstep. unfold in_hand. destruct l; unfold_step Hstep.
  - injection Hstep as <-. exists []. simpl. rewrite app_nil_r.
    repeat split; [by intros ?? ?%elem_of_nil|]. intros d. by rewrite !app_assoc.
  - injection Hstep as <-. exists []. simpl. rewrite !app_nil_r.
    repeat split; [by intros ?? ?%elem_of_nil|done].
  - injection Hstep as <-. exists []. simpl. rewrite !app_nil_r.
    repeat split; [by intros ?? ?%elem_of_nil|done].
  - destruct (pc s) eqn:Hpc; try done.
    destruct (message_queue s) as [|data queue]; [done|].
    case_decide; [|done]. case_decide; injection Hstep as <-;
      exists []; simpl; rewrite !app_nil_r;
      (repeat split; [by intros ?? ?%elem_of_nil|]); intros d.
    + destruct order; simpl; [by right|done].
    + by right.
  - destruct (pc s) as [|data [|w todo]|] eqn:Hpc; try done.
    injection Hstep as <-. exists [(w, data)]. simpl. rewrite app_nil_r.
    repeat split.
    + intros ws d [= -> ->]%list_elem_of_singleton. left.
    + intros d. destruct todo; simpl; [by right|done].
  - destruct (pc s) as [|data [|w todo]|] eqn:Hpc; try done.
    injection Hstep as <-. exists []. simpl. rewrite !app_nil_r.
    repeat split; [by intros ?? ?%elem_of_nil|].
    intros d. destruct todo; simpl; [by right|done].
  - destruct (pc s) eqn:Hpc; try done; injection Hstep as <-; exists [];
      simpl; rewrite !app_nil_r; (repeat split; [by intros ?? ?%elem_of_nil|]);
      intros d; [done|by right].
Qed.

Lemma run_sends_from_queue s ls s' :
  run s ls = Some s' ->
  exists new,
    sent s' = sent s ++ new /\
    forall ws data, (ws, data) ∈ new ->
                    data ∈ in_hand s ++ message_queue s ++ queue_puts ls.
Proof.
  revert s. induction ls as [|l ls IH]; intros s Hrun; simpl in Hrun.
  - injection Hrun as <-. exists []. rewrite app_nil_r.
    split; [done|]. by intros ?? ?%elem_of_nil.
  - destruct (step s l) as [s1|] eqn:Hstep; [|done].
    destruct (step_sends_from_queue s l s1 Hstep) as (new1 & Hs1 & Hnew1 & Hnext).
    destruct (IH s1 Hrun) as (new & Hs' & Hnew).
    exists (new1 ++ new). split; [by rewrite Hs', Hs1, app_assoc|].
    intros ws data [Hin|Hin]%elem_of_app.
    + apply Hnew1 in Hin. apply elem_of_app. by left.
    + apply Hnew in Hin. rewrite queue_puts_cons.
      rewrite app_assoc in Hin. apply elem_of_app in Hin as [Hin|Hin].
      * apply Hnext in Hin. rewrite !app_assoc. apply elem_of_app. left.
        by rewrite <- !app_assoc.
      * rewrite !app_assoc. apply elem_of_app. by right.
Qed.

(** C7: data taken from the queue while no websocket is registered is
    dropped: the broadcaster is back in [get()] with the rest of the queue,
    nothing in hand and nothing sent; and unless the same data is put in the
    queue again, no websocket, registered later or not, is ever sent it. *)
Theorem dropped_data_is_never_delivered s data queue :
  pc s = Getting -> message_queue s = data :: queue -> websocket_clients s = ∅ ->
  let dropped :=
    {| pc := Getting; message_queue := queue; websocket_clients := ∅;
       accepted := accepted s; sent := sent s;
       console := console s ++ [NoClientsDataDropped] |} in
  step s (Get []) = Some dropped /\
  (forall order, order <> [] -> step s (Get order) = None) /\
  (data ∉ queue ->
   forall ls s', run dropped ls = Some s' -> data ∉ queue_puts ls ->
   exists new, sent s' = sent s ++ new /\ forall ws, (ws, data) ∉ new).
Proof.
  intros Hpc Hq Hempty dropped. split; [|split].
  - cbv [step broadcast_messages]. rewrite Hpc, Hq, Hempty.
    rewrite decide_True by (by apply enumerates_nil).
    rewrite decide_False by (intros Hne; by apply Hne). done.
  - intros order Hne. cbv [step broadcast_messages]. rewrite Hpc, Hq, Hempty.
    rewrite decide_False; [done|]. by rewrite enumerates_nil.
  - intros Hfresh ls s' Hrun Hputs.
    destruct (run_sends_from_queue dropped ls s' Hrun) as (new & Hs & Hnew).
    exists new. split; [done|]. intros ws Hin. apply Hnew in Hin. simpl in Hin.
    apply elem_of_app in Hin as [Hin|Hin]; done.
Qed.

Lemma dropped_data_is_never_delivered_witness :
  step initial_with_data (Get []) = Some initial_after_drop /\
  (forall order, order <> [] -> step initial_with_data (Get order) = None) /\
  (bs [7] ∉ ([] : list bytes) ->
   forall ls s', run initial_after_drop ls = Some s' -> bs [7] ∉ queue_puts ls ->
   exists new, sent s' = sent initial_with_data ++ new /\
               forall ws, (ws, bs [7]) ∉ new).
Proof.
  apply (dropped_data_is_never_delivered initial_with_data (bs [7]) []);
    reflexivity.
Defined.

End Broadcaster.

(** * More on the frame reader and the loop of [main] *)

Section Viewer.
Import HexViewer.

Lemma read_upto_raises {E} n (s s' : stream E) e :
  read_upto n s = (Raise e, s') -> s = Fault e :: s'.
Proof.
  destruct s as [|[c|e'] rest]; simpl; [done| |by intros [= -> ->]].
  by case_decide.
Qed.

(** A call that returns bytes returns the next bytes of the stream. *)
Lemma read_upto_returns {E} n (s s' : stream E) chunk :
  read_upto n s = (Return chunk, s') -> chunk <> [] ->
  readable s = chunk ++ readable s' /\
  exists c rest, s = Data c :: rest /\
    (s' = rest \/ (s' = Data (drop (Z.to_nat n) c) :: rest /\ len chunk = n)).
Proof.
  destruct s as [|[c|e] rest]; simpl; [by intros [= <- <-]| |done].
  case_decide as Hle; intros [= <- <-] Hne.
  - split; [by destruct c|]. eauto.
  - destruct (Z.to_nat n) as [|k] eqn:Hk; [done|].
    assert (S k < length c)%nat as Hlt by (unfold len in Hle; lia).
    split.
    + destruct (drop (S k) c) as [|d ds] eqn:Hd.
      * apply (f_equal length) in Hd. rewrite length_drop in Hd. simpl in Hd. lia.
      * destruct c as [|b c]; [done|].
        change ((b :: c) ++ readable rest =
                take (S k) (b :: c) ++ (d :: ds) ++ readable rest).
        rewrite <- Hd, app_assoc, take_drop. done.
    + exists c, rest. split; [done|]. right. split; [done|].
      unfold len. rewrite length_take. lia.
Qed.

Lemma read_remaining_prefix remaining message sock :
  forall packet sock_after,
  read_remaining remaining message sock = (Return (Some packet), sock_after) ->
  exists body, packet = message ++ body /\ readable sock = body ++ readable sock_after.
Proof.
  revert remaining message sock.
  apply (read_remaining_induction (fun remaining message sock =>
    forall packet sock_after,
    read_remaining remaining message sock = (Return (Some packet), sock_after) ->
    exists body, packet = message ++ body /\
                 readable sock = body ++ readable sock_after)).
  intros remaining message sock IH packet sock_after.
  rewrite read_remaining_eq. case_decide as Hr.
  - destruct (recv remaining sock) as [[chunk|e] sock'] eqn:Hrecv; [|done].
    case_decide as Hc; [done|]. intros Hout.
    destruct (IH chunk sock' Hr eq_refl Hc packet sock_after Hout) as (body & -> & Hb).
    destruct (read_upto_returns _ _ _ _ Hrecv Hc) as [Hsplit _].
    exists (chunk ++ body). by rewrite Hsplit, Hb, !app_assoc.
  - intros [= <- <-]. exists []. by rewrite app_nil_r.
Qed.

Lemma read_dlt_packet_next_bytes sock packet sock_after printed :
  read_dlt_packet sock = (Return (Some packet), sock_after, printed) ->
  readable sock = packet ++ readable sock_after /\ printed = [].
Proof.
  intros Hrun.
  destruct (recv 4 sock) as [[std_header|e] sock1] eqn:Hrecv;
    [|unfold read_dlt_packet in Hrun; rewrite Hrecv in Hrun; done].
  pose proof (read_upto_at_most 4 _ _ _ ltac:(lia) Hrecv) as Hle.
  destruct (decide (len std_header < 4)) as [Hshort|Hfull].
  { unfold read_dlt_packet in Hrun. rewrite Hrecv, decide_True in Hrun by done. done. }
  destruct (read_dlt_packet_after_header sock std_header sock1 Hrecv ltac:(lia))
    as (n & _ & _ & _ & Heq).
  rewrite Heq in Hrun. case_decide as Hbad; [done|].
  destruct (read_remaining (n - 4) std_header sock1) as [r sock2] eqn:Hloop.
  injection Hrun as -> -> <-.
  destruct (read_remaining_prefix _ _ _ _ _ Hloop) as (body & -> & Hb).
  assert (std_header <> []) as Hne by (intros ->; unfold len in Hfull; simpl in Hfull; lia).
  destruct (read_upto_returns _ _ _ _ Hrecv Hne) as [Hsplit _].
  split; [|done]. by rewrite Hsplit, Hb, app_assoc.
Qed.

(** X1: a packet returned is made of the next bytes of the stream, and the
    socket is left at the byte that follows: nothing is skipped, nothing is
    read ahead. *)
Theorem returned_packet_is_next_bytes sock packet sock_after printed :
  read_dlt_packet sock = (Return (Some packet), sock_after, printed) ->
  readable sock = packet ++ readable sock_after /\ printed = [].
Proof. apply read_dlt_packet_next_bytes. Qed.

Lemma returned_packet_is_next_bytes_witness :
  readable ([Data (bs [0; 0; 0; 6; 1]); Data (bs [2; 0; 0]); Fault OtherError] : socket) =
    bs [0; 0; 0; 6; 1; 2] ++ readable ([Data (bs [0; 0]); Fault OtherError] : socket) /\
  ([] : list line) = [].
Proof.
  apply (returned_packet_is_next_bytes
           [Data (bs [0; 0; 0; 6; 1]); Data (bs [2; 0; 0]); Fault OtherError]
           (bs [0; 0; 0; 6; 1; 2]) [Data (bs [0; 0]); Fault OtherError] []).
  vm_compute. reflexivity.
Defined.

(** The first call of [recv] on a run of at least four bytes: the header,
    and the rest of the run left in front of the stream. *)
Lemma recv_header chunk (rest : socket) :
  4 <= len chunk ->
  exists body_chunks,
    recv 4 (Data chunk :: rest) = (Return (take 4 chunk), map Data body_chunks ++ rest) /\
    Forall (fun c => c <> []) body_chunks /\
    concat body_chunks = drop 4 chunk /\
    len (take 4 chunk) = 4.
Proof.
  intros Hlen. unfold recv. simpl read_upto.
  assert (len (take 4 chunk) = 4) as H4 by (unfold len in *; rewrite length_take; lia).
  case_decide as Hle.
  - exists []. assert (length chunk = 4%nat) as Hl by (unfold len in *; lia).
    rewrite take_ge, drop_ge by lia.
    repeat split; try done. unfold len. lia.
  - exists [drop 4 chunk]. simpl. rewrite app_nil_r.
    repeat split; try done. constructor; [|done].
    intros Hd. apply (f_equal length) in Hd. rewrite length_drop in Hd.
    unfold len in *. simpl in Hd. lia.
Qed.

Lemma read_remaining_chunks chunks :
  forall remaining message (rest : socket),
  Forall (fun c => c <> []) chunks -> len (concat chunks) = remaining ->
  read_remaining remaining message (map Data chunks ++ rest) =
    (Return (Some (message ++ concat chunks)), rest).
Proof.
  induction chunks as [|chunk chunks IH]; intros remaining message rest Hne Hlen;
    rewrite read_remaining_eq.
  - simpl in *. rewrite decide_False by (unfold len in Hlen; simpl in Hlen; lia).
    by rewrite app_nil_r.
  - apply Forall_cons in Hne as [Hc Hne]. simpl in Hlen. rewrite len_app in Hlen.
    pose proof (len_nonneg (concat chunks)).
    assert (0 < len chunk) by (destruct chunk; [done|]; unfold len; simpl; lia).
    rewrite decide_True by lia.
    unfold recv. simpl read_upto. rewrite decide_True by lia.
    rewrite decide_False by done.
    rewrite IH by (done || lia). simpl. by rewrite app_assoc.
Qed.

Lemma read_remaining_truncated (sock : socket) :
  forall remaining message,
  Forall carries_data sock -> len (readable sock) < remaining ->
  read_remaining remaining message sock = (Return None, []).
Proof.
  induction sock as [|a sock IH]; intros remaining message Hdata Hlen;
    rewrite read_remaining_eq.
  - simpl in Hlen. rewrite decide_True by (unfold len in Hlen; simpl in Hlen; lia).
    done.
  - apply Forall_cons in Hdata as [Ha Hdata].
    destruct a as [[|b chunk]|e]; try done.
    change (readable (Data (b :: chunk) :: sock))
      with ((b :: chunk) ++ readable sock) in Hlen.
    rewrite len_app in Hlen. pose proof (len_nonneg (readable sock)).
    assert (0 < len (b :: chunk)) by (unfold len; simpl; lia).
    rewrite decide_True by lia.
    unfold recv. simpl read_upto. rewrite decide_True by lia.
    rewrite decide_False by done. apply IH; [done|lia].
Qed.

Lemma read_remaining_fault chunks :
  forall remaining message e (rest : socket),
  Forall (fun c => c <> []) chunks -> len (concat chunks) < remaining ->
  read_remaining remaining message (map Data chunks ++ Fault e :: rest) = (Raise e, rest).
Proof.
  induction chunks as [|chunk chunks IH]; intros remaining message e rest Hne Hlen;
    rewrite read_remaining_eq.
  - simpl in *. rewrite decide_True by (unfold len in Hlen; simpl in Hlen; lia). done.
  - apply Forall_cons in Hne as [Hc Hne]. simpl in Hlen. rewrite len_app in Hlen.
    pose proof (len_nonneg (concat chunks)).
    assert (0 < len chunk) by (destruct chunk; [done|]; unfold len; simpl; lia).
    rewrite decide_True by lia.
    unfold recv. simpl read_upto. rewrite decide_True by lia.
    rewrite decide_False by done. apply IH; [done|lia].
Qed.

Lemma read_remaining_raises remaining message sock :
  forall e sock_after,
  read_remaining remaining message sock = (Raise e, sock_after) ->
  exists arrived, sock = arrived ++ Fault e :: sock_after /\ Forall not_a_fault arrived.
Proof.
  revert remaining message sock.
  apply (read_remaining_induction (fun remaining message sock =>
    forall e sock_after,
    read_remaining remaining message sock = (Raise e, sock_after) ->
    exists arrived, sock = arrived ++ Fault e :: sock_after /\
                    Forall not_a_fault arrived)).
  intros remaining message sock IH e sock_after.
  rewrite read_remaining_eq. case_decide as Hr; [|done].
  destruct (recv remaining sock) as [[chunk|e'] sock'] eqn:Hrecv.
  - case_decide as Hc; [done|]. intros Hout.
    destruct (read_upto_returns _ _ _ _ Hrecv Hc) as [_ (c & rest & -> & [->|[-> Hall]])].
    + destruct (IH chunk rest Hr eq_refl Hc e sock_after Hout) as (arrived & -> & Harr).
      exists (Data c :: arrived). split; [done|]. by constructor.
    + rewrite read_remaining_eq, decide_False in Hout by lia. done.
  - intros [= <- <-]. apply read_upto_raises in Hrecv as ->.
    exists []. by split.
Qed.

Lemma read_dlt_packet_raises sock e sock_after printed :
  read_dlt_packet sock = (Raise e, sock_after, printed) ->
  exists arrived,
    sock = arrived ++ Fault e :: sock_after /\ Forall not_a_fault arrived /\
    printed = [].
Proof.
  intros Hrun.
  destruct (recv 4 sock) as [[std_header|e'] sock1] eqn:Hrecv.
  - pose proof (read_upto_at_most 4 _ _ _ ltac:(lia) Hrecv) as Hle.
    destruct (decide (len std_header < 4)) as [Hshort|Hfull].
    { unfold read_dlt_packet in Hrun. rewrite Hrecv, decide_True in Hrun by done. done. }
    destruct (read_dlt_packet_after_header sock std_header sock1 Hrecv ltac:(lia))
      as (n & _ & _ & _ & Heq).
    rewrite Heq in Hrun. case_decide as Hbad; [done|].
    destruct (read_remaining (n - 4) std_header sock1) as [r sock2] eqn:Hloop.
    injection Hrun as -> -> <-.
    destruct (read_remaining_raises _ _ _ _ _ Hloop) as (arrived & Hs1 & Harr).
    assert (std_header <> []) as Hne
      by (intros ->; unfold len in Hfull; simpl in Hfull; lia).
    destruct (read_upto_returns _ _ _ _ Hrecv Hne) as [_ (c & rest & -> & [->|[-> _]])].
    + exists (Data c :: arrived). rewrite Hs1. repeat split; try done. by constructor.
    + destruct arrived as [|a arrived]; [done|]. injection Hs1 as <- ->.
      exists (Data c :: arrived). repeat split; try done.
      apply Forall_cons in Harr as [_ Harr]. by constructor.
  - unfold read_dlt_packet in Hrun. rewrite Hrecv in Hrun. injection Hrun as <- <- <-.
    apply read_upto_raises in Hrecv as ->. exists []. by repeat split.
Qed.

(** X3: [read_dlt_packet] raises only what [recv] raises: the exception is a
    fault of the socket, every arrival before it has been consumed and is
    lost, and the socket is left just after the fault; in particular
    [struct.unpack] never fails, its argument having two bytes each time. *)
Theorem raises_only_socket_faults sock e sock_after printed :
  read_dlt_packet sock = (Raise e, sock_after, printed) ->
  exists arrived,
    sock = arrived ++ Fault e :: sock_after /\ Forall not_a_fault arrived /\
    printed = [].
Proof. apply read_dlt_packet_raises. Qed.

Lemma raises_only_socket_faults_witness :
  exists arrived,
    ([Data (bs [0; 0; 0; 9; 1]); Data (bs [2; 3]); Fault SocketTimeout;
      Data (bs [4; 5])] : socket) =
      arrived ++ Fault SocketTimeout :: [Data (bs [4; 5])] /\
    Forall not_a_fault arrived /\ ([] : list line) = [].
Proof.
  apply (raises_only_socket_faults
           [Data (bs [0; 0; 0; 9; 1]); Data (bs [2; 3]); Fault SocketTimeout;
            Data (bs [4; 5])]
           SocketTimeout [Data (bs [4; 5])] []).
  vm_compute. reflexivity.
Defined.

(** X2: when the peer closes the stream in the middle of a frame, the part of
    the frame that was read is dropped: [None] is returned, as at the end of
    the stream, and nothing is printed. *)
Theorem truncated_frame_returns_none chunk (rest : socket) n :
  Forall carries_data (Data chunk :: rest) ->
  4 <= len chunk -> length_field chunk = Some n -> 4 <= n ->
  len (readable (Data chunk :: rest)) < n ->
  read_dlt_packet (Data chunk :: rest) = (Return None, [], []).
Proof.
  intros Hdata Hchunk Hlf Hn Hshort.
  destruct (recv_header chunk rest Hchunk) as (body & Hrecv & Hbody & Hcat & H4).
  destruct (read_dlt_packet_after_header _ _ _ Hrecv H4) as (n' & _ & Hlf' & _ & Heq).
  rewrite (length_field_take _ _ Hlf) in Hlf'. injection Hlf' as <-.
  rewrite Heq, decide_False by lia.
  apply Forall_cons in Hdata as [Hc Hdata].
  assert (readable (Data chunk :: rest) = chunk ++ readable rest) as Hr
    by (destruct chunk; done).
  rewrite Hr, len_app in Hshort.
  rewrite read_remaining_truncated; [done| |].
  - apply Forall_app. split; [|done].
    apply Forall_fmap. eapply Forall_impl; [exact Hbody|]. by intros [|??].
  - assert (readable (map Data body ++ rest) = drop 4 chunk ++ readable rest) as ->.
    { rewrite <- Hcat. clear -Hbody.
      induction Hbody as [|c cs Hc _ IH]; [done|].
      destruct c as [|b c]; [done|]. simpl. by rewrite IH, app_assoc. }
    rewrite len_app. unfold len in *. rewrite length_drop. lia.
Qed.

Lemma truncated_frame_returns_none_witness :
  read_dlt_packet [Data (bs [0; 0; 0; 10; 1; 2]); Data (bs [3])] = (Return None, [], []).
Proof.
  apply (truncated_frame_returns_none (bs [0; 0; 0; 10; 1; 2]) [Data (bs [3])] 10).
  - repeat constructor.
  - vm_compute. discriminate.
  - reflexivity.
  - lia.
  - vm_compute. reflexivity.
Defined.

(** The frame invariant of a returned packet, for use along the loop of
    [main]. *)
Lemma read_dlt_packet_frame sock packet sock_after printed :
  read_dlt_packet sock = (Return (Some packet), sock_after, printed) ->
  frame_invariant packet.
Proof.
  intros Hrun.
  destruct (recv 4 sock) as [[std_header|e] sock1] eqn:Hrecv;
    [|unfold read_dlt_packet in Hrun; rewrite Hrecv in Hrun; done].
  pose proof (read_upto_at_most 4 _ _ _ ltac:(lia) Hrecv) as Hle.
  destruct (decide (len std_header < 4)) as [Hshort|Hfull].
  { unfold read_dlt_packet in Hrun. rewrite Hrecv, decide_True in Hrun by done. done. }
  destruct (read_dlt_packet_after_header sock std_header sock1 Hrecv ltac:(lia))
    as (n & _ & Hlf & Hn & Heq).
  rewrite Heq in Hrun. case_decide as Hbad; [done|].
  destruct (read_remaining (n - 4) std_header sock1) as [r sock2] eqn:Hloop.
  injection Hrun as -> -> <-.
  destruct (read_remaining_returns (n - 4) _ _ _ _ ltac:(lia) Hloop) as (body & -> & Hb).
  exists n. split; [|split; [|lia]].
  - destruct std_header as [|b0 [|b1 [|hi [|lo ?]]]]; done.
  - rewrite len_app. lia.
Qed.

Lemma read_upto_faultless {E} n (s s' : stream E) r :
  read_upto n s = (r, s') -> Forall not_a_fault s -> Forall not_a_fault s'.
Proof.
  destruct s as [|[c|e] rest]; simpl.
  - by intros [= <- <-].
  - case_decide; intros [= <- <-] [_ Hrest]%Forall_cons; [done|by constructor].
  - by intros _ [? _]%Forall_cons.
Qed.

Lemma read_remaining_faultless remaining message sock :
  forall r sock_after,
  read_remaining remaining message sock = (r, sock_after) ->
  Forall not_a_fault sock -> Forall not_a_fault sock_after.
Proof.
  revert remaining message sock.
  apply (read_remaining_induction (fun remaining message sock =>
    forall r sock_after,
    read_remaining remaining message sock = (r, sock_after) ->
    Forall not_a_fault sock -> Forall not_a_fault sock_after)).
  intros remaining message sock IH r sock_after.
  rewrite read_remaining_eq. case_decide as Hr; [|by intros [= <- <-]].
  destruct (recv remaining sock) as [[chunk|e] sock'] eqn:Hrecv.
  - pose proof (read_upto_faultless _ _ _ _ Hrecv) as Hkeep.
    case_decide as Hc; [intros [= <- <-]; done|].
    intros Hout Hs. eapply (IH chunk sock'); eauto.
  - intros [= <- <-]. by apply (read_upto_faultless _ _ _ _ Hrecv).
Qed.

(** On a socket without fault, [read_dlt_packet] does not raise and leaves
    a socket without fault. *)
Lemma read_dlt_packet_faultless sock r sock_after printed :
  read_dlt_packet sock = (r, sock_after, printed) -> Forall not_a_fault sock ->
  Forall not_a_fault sock_after /\ forall e, r <> Raise e.
Proof.
  intros Hrun Hs. split.
  - unfold read_dlt_packet in Hrun.
    destruct (recv 4 sock) as [[std_header|e] sock1] eqn:Hrecv.
    + pose proof (read_upto_faultless _ _ _ _ Hrecv Hs) as Hs1.
      case_decide; [by injection Hrun as <- <- <-|].
      destruct (unpack_H _); [|by injection Hrun as <- <- <-].
      case_decide; [by injection Hrun as <- <- <-|].
      destruct (read_remaining _ _ _) as [r2 sock2] eqn:Hloop.
      injection Hrun as <- <- <-. by eapply read_remaining_faultless.
    + injection Hrun as <- <- <-. by apply (read_upto_faultless _ _ _ _ Hrecv).
  - intros e ->. destruct (read_dlt_packet_raises _ _ _ _ Hrun) as (arrived & -> & _).
    apply Forall_app in Hs as [_ [Hf _]%Forall_cons]. done.
Qed.

(** The loop of [main], one turn unfolded. *)
Lemma main_loop_eq sock packet_count out :
  main_loop sock packet_count out =
  match read_dlt_packet sock with
  | (Return None, sock', printed) =>
      (packet_count, sock', out ++ printed ++ [ConnectionClosedByDaemon])
  | (Return (Some packet), sock', printed) =>
      main_loop sock' (packet_count + 1)
                (out ++ printed ++ [PacketDump (packet_count + 1) packet])
  | (Raise SocketTimeout, sock', printed) =>
      main_loop sock' packet_count (out ++ printed)
  | (Raise e, sock', printed) =>
      (packet_count, sock', out ++ printed ++ [ErrorReadingPacket e])
  end.
Proof.
  funelim (main_loop sock packet_count out);
    match goal with H : read_dlt_packet _ = _ |- _ => rewrite H end; reflexivity.
Qed.

(** Induction along the turns of the loop of [main]. *)
Lemma main_loop_induction (P : socket -> Prop) :
  (forall sock,
     (forall r sock' printed,
        read_dlt_packet sock = (r, sock', printed) -> sock <> [] -> P sock') ->
     P sock) ->
  forall sock, P sock.
Proof.
  intros Hstep sock.
  remember (weight sock) as k eqn:Hk. revert sock Hk.
  induction (lt_wf k) as [k _ IH]. intros sock ->.
  apply Hstep. intros r sock' printed Hrun Hne.
  eapply IH; [|reflexivity].
  pose proof (read_dlt_packet_weight sock Hne) as Hw. by rewrite Hrun in Hw.
Qed.

Lemma dumped_app (l k : list line) : dumped (l ++ k) = dumped l ++ dumped k.
Proof. apply omap_app. Qed.

Lemma read_dlt_packet_prints_no_dump sock r sock' printed :
  read_dlt_packet sock = (r, sock', printed) -> dumped printed = [].
Proof.
  unfold read_dlt_packet.
  destruct (recv 4 sock) as [[std_header|e] sock1]; [|by intros [= <- <- <-]].
  case_decide; [by intros [= <- <- <-]|].
  destruct (unpack_H _); [|by intros [= <- <- <-]].
  case_decide; [by intros [= <- <- <-]|].
  destruct (read_remaining _ _ _). by intros [= <- <- <-].
Qed.

Lemma read_dlt_packet_closed : read_dlt_packet [] = (Return None, [], []).
Proof. reflexivity. Qed.

(** X4: the packets that the loop of [main] dumps are numbered one after the
    other from the count it starts with, the count it ends with is their
    number, and each of them satisfies the frame invariant.  On a socket
    without fault they are, one after the other, the first bytes of the
    stream, and the loop ends on the line of the closed connection. *)
Theorem main_loop_counts_the_frames_of_the_stream sock :
  forall packet_count out packet_count' sock' out',
  main_loop sock packet_count out = (packet_count', sock', out') ->
  exists packets,
    dumped out' = dumped out ++ numbered packet_count packets /\
    packet_count' = packet_count + len packets /\
    Forall frame_invariant packets /\
    (Forall not_a_fault sock ->
     concat packets `prefix_of` readable sock /\
     last out' = Some ConnectionClosedByDaemon).
Proof.
  apply (main_loop_induction (fun sock =>
    forall packet_count out packet_count' sock' out',
    main_loop sock packet_count out = (packet_count', sock', out') ->
    exists packets,
      dumped out' = dumped out ++ numbered packet_count packets /\
      packet_count' = packet_count + len packets /\
      Forall frame_invariant packets /\
      (Forall not_a_fault sock ->
       concat packets `prefix_of` readable sock /\
       last out' = Some ConnectionClosedByDaemon))).
  clear sock. intros sock IH packet_count out packet_count' sock' out'.
  rewrite main_loop_eq.
  destruct (decide (sock = [])) as [->|Hne].
  { intros [= <- <- <-]. exists []. repeat split.
    - rewrite dumped_app. simpl. by rewrite !app_nil_r.
    - unfold len. simpl. lia.
    - constructor.
    - apply prefix_nil.
    - simpl. by rewrite last_snoc. }
  destruct (read_dlt_packet sock) as [[r sock1] printed] eqn:Hrun.
  pose proof (read_dlt_packet_prints_no_dump _ _ _ _ Hrun) as Hprinted.
  pose proof (read_dlt_packet_faultless _ _ _ _ Hrun) as Hfaultless.
  destruct r as [[packet|]|e].
  - intros Hloop.
    destruct (IH _ _ _ eq_refl Hne _ _ _ _ _ Hloop) as (packets & Hd & Hc & Hf & Hp).
    destruct (read_dlt_packet_next_bytes _ _ _ _ Hrun) as [Hsplit _].
    exists (packet :: packets). repeat split.
    + rewrite Hd, !dumped_app, Hprinted. simpl. by rewrite <- !app_assoc.
    + unfold len in *. simpl length. lia.
    + constructor; [|done]. by eapply read_dlt_packet_frame.
    + simpl. rewrite Hsplit. apply prefix_app. apply Hp. by apply Hfaultless.
    + apply Hp. by apply Hfaultless.
  - intros [= <- <- <-]. exists []. repeat split.
    + rewrite !dumped_app, Hprinted. simpl. by rewrite !app_nil_r.
    + unfold len. simpl. lia.
    + constructor.
    + apply prefix_nil.
    + by rewrite !app_assoc, last_snoc.
  - assert (forall P : Prop, Forall not_a_fault sock -> P) as Hnever.
    { intros P Hs. destruct (Hfaultless Hs) as [_ Hno]. by destruct (Hno e). }
    destruct e.
    + intros Hloop.
      destruct (IH _ _ _ eq_refl Hne _ _ _ _ _ Hloop) as (packets & Hd & Hc & Hf & Hp).
      exists packets. repeat split; try done; try (by apply Hnever).
      rewrite Hd, !dumped_app, Hprinted. by rewrite app_nil_r.
    + intros [= <- <- <-]. exists []. repeat split; try (by apply Hnever).
      * rewrite !dumped_app, Hprinted. simpl. by rewrite !app_nil_r.
      * unfold len. simpl. lia.
      * constructor.
    + intros [= <- <- <-]. exists []. repeat split; try (by apply Hnever).
      * rewrite !dumped_app, Hprinted. simpl. by rewrite !app_nil_r.
      * unfold len. simpl. lia.
      * constructor.
Qed.

Lemma main_loop_counts_the_frames_of_the_stream_witness :
  exists packets,
    dumped [PacketDump 1 (bs [0; 0; 0; 5; 1]); PacketDump 2 (bs [0; 0; 0; 4]);
            ConnectionClosedByDaemon] =
      dumped [] ++ numbered 0 packets /\
    2 = 0 + len packets /\
    Forall frame_invariant packets /\
    (Forall not_a_fault
       ([Data (bs [0; 0; 0; 5; 1; 0; 0; 0; 4; 9])] : socket) ->
     concat packets `prefix_of`
       readable ([Data (bs [0; 0; 0; 5; 1; 0; 0; 0; 4; 9])] : socket) /\
     last [PacketDump 1 (bs [0; 0; 0; 5; 1]); PacketDump 2 (bs [0; 0; 0; 4]);
           ConnectionClosedByDaemon] = Some ConnectionClosedByDaemon).
Proof.
  apply (main_loop_counts_the_frames_of_the_stream
           [Data (bs [0; 0; 0; 5; 1; 0; 0; 0; 4; 9])] 0 [] 2 []).
  vm_compute. reflexivity.
Defined.

Lemma delivers_frame_chunks (d : delivery) :
  delivers_frame d ->
  exists chunk chunks n,
    d.2 = chunk :: chunks /\ 4 <= len chunk /\
    Forall (fun c => c <> []) chunks /\
    length_field chunk = Some n /\ 4 <= n /\
    len (concat d.2) = n.
Proof.
  intros ((n & Hlf & Hlen & Hn) & Hne & chunk & chunks & Hd & H4).
  rewrite Hd in *. apply Forall_cons in Hne as [_ Hne].
  exists chunk, chunks, n. repeat split; try done; try lia.
  simpl in Hlf. unfold len in H4.
  destruct chunk as [|b0 [|b1 [|hi [|lo ?]]]]; simpl in *; done || lia.
Qed.

(** One frame, as delivered, is read whole and leaves the socket at the
    next delivery. *)
Lemma read_dlt_packet_delivery (d : delivery) (rest : socket) :
  delivers_frame d ->
  read_dlt_packet (map Data d.2 ++ rest) = (Return (Some (concat d.2)), rest, []).
Proof.
  intros Hd.
  destruct (delivers_frame_chunks d Hd) as (chunk & chunks & n & -> & H4 & Hne & Hlf & Hn & Hlen).
  simpl map. simpl app.
  destruct (recv_header chunk (map Data chunks ++ rest) H4)
    as (body & Hrecv & Hbody & Hcat & Hh).
  destruct (read_dlt_packet_after_header _ _ _ Hrecv Hh) as (n' & _ & Hlf' & _ & Heq).
  rewrite (length_field_take _ _ Hlf) in Hlf'. injection Hlf' as <-.
  rewrite Heq, decide_False by lia.
  rewrite app_assoc, <- map_app.
  rewrite read_remaining_chunks.
  - rewrite concat_app, Hcat, app_assoc, take_drop. done.
  - by apply Forall_app.
  - simpl in Hlen. rewrite len_app in Hlen. rewrite concat_app, len_app, Hcat.
    unfold len in *. rewrite length_drop. lia.
Qed.

Lemma main_loop_deliveries ds :
  forall packet_count out,
  Forall delivers_frame ds ->
  main_loop (concat (map arrivals_of ds)) packet_count out =
    (packet_count + len ds, [],
     out ++ map (fun '(n, packet) => PacketDump n packet)
                (numbered packet_count (map (fun d => concat d.2) ds)) ++
     [ConnectionClosedByDaemon]).
Proof.
  induction ds as [|[k chunks] ds IH]; intros packet_count out Hds.
  - simpl. rewrite main_loop_eq. simpl. unfold len. simpl.
    by rewrite Z.add_0_r.
  - apply Forall_cons in Hds as [Hd Hds]. simpl concat.
    unfold arrivals_of at 1. simpl fst. simpl snd.
    pose proof (read_dlt_packet_delivery (k, chunks)
                  (concat (map arrivals_of ds)) Hd) as Hread.
    simpl in Hread. clear Hd.
    induction k as [|k IHk].
    + simpl replicate. simpl app.
      rewrite main_loop_eq, Hread.
      rewrite IH by done. simpl. f_equal; [f_equal|].
      * unfold len. simpl length. lia.
      * by rewrite <- !app_assoc.
    + simpl replicate. rewrite main_loop_eq. simpl. by rewrite app_nil_r.
Qed.

(** X5: frames that reach the viewer one after the other, each with its header
    in one piece, however the rest of it is cut and whatever the timeouts
    between the frames, are dumped by the loop of [main] as they were sent,
    in order and numbered from 1, until the peer closes the stream. *)
Theorem frames_in_are_frames_dumped ds :
  Forall delivers_frame ds ->
  main_loop (concat (map arrivals_of ds)) 0 [] =
    (len ds, [],
     map (fun '(n, packet) => PacketDump n packet)
         (numbered 0 (map (fun d => concat d.2) ds)) ++
     [ConnectionClosedByDaemon]).
Proof. intros Hds. by rewrite main_loop_deliveries. Qed.

Lemma frames_in_are_frames_dumped_witness :
  main_loop
    (concat (map arrivals_of
       [(1%nat, [bs [0; 0; 0; 6; 1]; bs [2]]); (2%nat, [bs [0; 0; 0; 4]])])) 0 [] =
    (len [(1%nat, [bs [0; 0; 0; 6; 1]; bs [2]]); (2%nat, [bs [0; 0; 0; 4]])], [],
     map (fun '(n, packet) => PacketDump n packet)
         (numbered 0 (map (fun d : delivery => concat d.2)
            [(1%nat, [bs [0; 0; 0; 6; 1]; bs [2]]); (2%nat, [bs [0; 0; 0; 4]])])) ++
     [ConnectionClosedByDaemon]).
Proof.
  apply (frames_in_are_frames_dumped
           [(1%nat, [bs [0; 0; 0; 6; 1]; bs [2]]); (2%nat, [bs [0; 0; 0; 4]])]).
  repeat constructor.
  - exists 6. vm_compute. repeat split; discriminate.
  - done.
  - done.
  - exists (bs [0; 0; 0; 6; 1]), [bs [2]]. split; [done|]. vm_compute. discriminate.
  - exists 4. vm_compute. repeat split; discriminate.
  - done.
  - exists (bs [0; 0; 0; 4]), []. split; [done|]. vm_compute. discriminate.
Defined.

(** X6: a timeout that strikes while a frame is being read makes the loop of
    [main] lose the part of the frame already read: it goes round again and
    takes the bytes that follow the timeout, in the middle of the frame, for
    the header of the next packet. *)
Theorem timeout_inside_a_frame_loses_its_start chunk chunks (rest : socket) n :
  4 <= len chunk -> length_field chunk = Some n -> 4 <= n ->
  Forall (fun c => c <> []) chunks ->
  len chunk + len (concat chunks) < n ->
  forall packet_count out,
  main_loop (Data chunk :: map Data chunks ++ Fault SocketTimeout :: rest)
            packet_count out =
  main_loop rest packet_count out.
Proof.
  intros H4 Hlf Hn Hne Hshort packet_count out.
  rewrite main_loop_eq.
  destruct (recv_header chunk (map Data chunks ++ Fault SocketTimeout :: rest) H4)
    as (body & Hrecv & Hbody & Hcat & Hh).
  destruct (read_dlt_packet_after_header _ _ _ Hrecv Hh) as (n' & _ & Hlf' & _ & Heq).
  rewrite (length_field_take _ _ Hlf) in Hlf'. injection Hlf' as <-.
  rewrite Heq, decide_False by lia.
  rewrite app_assoc, <- map_app.
  rewrite read_remaining_fault.
  - by rewrite app_nil_r.
  - by apply Forall_app.
  - rewrite concat_app, len_app, Hcat. unfold len in *. rewrite length_drop. lia.
Qed.

Lemma timeout_inside_a_frame_loses_its_start_witness :
  main_loop ([Data (bs [0; 0; 0; 8; 1])] ++ map Data [bs [2]] ++
             Fault SocketTimeout :: [Data (bs [3; 4; 0; 0; 0; 4])]) 0 [] =
  main_loop [Data (bs [3; 4; 0; 0; 0; 4])] 0 [].
Proof.
  apply (timeout_inside_a_frame_loses_its_start
           (bs [0; 0; 0; 8; 1]) [bs [2]] [Data (bs [3; 4; 0; 0; 0; 4])] 8).
  - vm_compute. discriminate.
  - reflexivity.
  - lia.
  - by repeat constructor.
  - vm_compute. reflexivity.
Defined.

End Viewer.

(** * Properties of the hex dump *)

Section HexDumpFacts.
Import HexDump.

Lemma Return_eq {E A} (a b : A) : @Return E A a = Return b -> a = b.
Proof. by intros [= ->]. Qed.

Lemma hex_eq n :
  hex n = if decide (n < 16) then [hex_digit n]
          else hex (n / 16) ++ [hex_digit (n mod 16)].
Proof.
  funelim (hex n).
  - by rewrite decide_True.
  - by rewrite decide_False.
Qed.

Lemma range_from_0 stop step :
  0 < step ->
  range 0 stop step =
    Return (map (fun k => Z.of_nat k * step)
                (seq 0 (Z.to_nat ((stop + step - 1) / step)))).
Proof.
  intros Hstep. unfold range.
  rewrite decide_False by lia. rewrite decide_True by done.
  rewrite Z.sub_0_r. done.
Qed.


Lemma format_line_starts data bytes_per_line i :
  exists rest, format_line data bytes_per_line i = " "%char :: " "%char :: rest.
Proof. unfold format_line. simpl. eauto. Qed.

Lemma join_cons_nonempty sep part parts :
  part <> [] -> join sep (part :: parts) <> [].
Proof. intros Hne. destruct parts; simpl; [done|]. by destruct part. Qed.


(** ** The lines of a dump *)

Lemma hex_induction (P : Z -> Prop) :
  (forall n, (16 <= n -> P (n / 16)) -> P n) -> forall n, P n.
Proof.
  intros Hstep n.
  remember (Z.to_nat n) as k eqn:Hk. revert n Hk.
  induction (lt_wf k) as [k _ IH]. intros n ->.
  apply Hstep. intros Hn. eapply IH; [|reflexivity].
  assert (n / 16 < n) by (apply Z.div_lt; lia).
  assert (0 <= n / 16) by (apply Z.div_pos; lia). lia.
Qed.

Lemma hex_nonempty n : hex n <> [].
Proof. rewrite hex_eq. case_decide; [done|]. by destruct (hex (n / 16)). Qed.

(** A number below [16 ^ k] has at most [k] digits. *)
Lemma hex_length k :
  forall n, 0 <= n < 16 ^ Z.of_nat (S k) -> (length (hex n) <= S k)%nat.
Proof.
  induction k as [|k IH]; intros n Hn; rewrite hex_eq; case_decide as H16.
  - simpl. lia.
  - change (16 ^ Z.of_nat 1) with 16 in Hn. lia.
  - simpl. lia.
  - rewrite length_app. simpl.
    assert (0 <= n / 16 < 16 ^ Z.of_nat (S k)); [|specialize (IH (n / 16)); lia].
    split; [apply Z.div_pos; lia|].
    apply Z.div_lt_upper_bound; [lia|].
    replace (Z.of_nat (S (S k))) with (Z.succ (Z.of_nat (S k))) in Hn by lia.
    rewrite Z.pow_succ_r in Hn by lia. lia.
Qed.

Lemma format_x_length width n :
  forall k, width = Z.of_nat (S k) -> 0 <= n < 16 ^ width ->
  len (format_x width n) = width.
Proof.
  intros k -> Hn. pose proof (hex_length k n Hn).
  unfold format_x, rjust0, len in *. rewrite length_app, length_replicate. lia.
Qed.

Lemma join_length sep parts p :
  Forall (fun part => len part = p) parts -> parts <> [] ->
  len (join sep parts) = len parts * p + (len parts - 1) * len sep.
Proof.
  induction 1 as [|part parts Hp Hparts IH]; [done|]. intros _.
  destruct parts as [|part' parts].
  - simpl. unfold len in *. simpl length. lia.
  - change (join sep (part :: part' :: parts))
      with (part ++ sep ++ join sep (part' :: parts)).
    rewrite !len_app, IH by done. unfold len in *. simpl length. lia.
Qed.

Lemma ljust_length width s : len s <= width -> len (ljust width s) = width.
Proof.
  intros Hs. unfold ljust, len in *. rewrite length_app, length_replicate. lia.
Qed.

Lemma slice_at_offset (data : bytes) (i n : Z) :
  0 <= i -> 0 <= n ->
  slice (Z.to_nat i) (Z.to_nat (i + n)) data =
    take (Z.to_nat n) (drop (Z.to_nat i) data).
Proof. intros Hi Hn. unfold slice. f_equal. lia. Qed.

(** The lines of the dump, for a positive [bytes_per_line]. *)
Lemma format_hex_lines data bytes_per_line :
  0 < bytes_per_line ->
  format_hex data bytes_per_line =
    Return (join [newline]
              (map (fun k => format_line data bytes_per_line
                                         (Z.of_nat k * bytes_per_line))
                   (seq 0 (line_count data bytes_per_line)))).
Proof.
  intros Hn. unfold format_hex. rewrite range_from_0 by done.
  by rewrite map_map.
Qed.

(** The bytes of line [k], when there is such a line. *)
Lemma line_bytes_length data bytes_per_line k :
  0 < bytes_per_line -> (k < line_count data bytes_per_line)%nat ->
  1 <= len (line_bytes data bytes_per_line k) <= bytes_per_line /\
  len (line_bytes data bytes_per_line k) =
    Z.min bytes_per_line (len data - Z.of_nat k * bytes_per_line).
Proof.
  intros Hn Hk. unfold line_count in Hk.
  assert (Z.of_nat k < (len data + bytes_per_line - 1) / bytes_per_line) as Hk' by lia.
  assert (Z.of_nat k * bytes_per_line < len data) as Hlt.
  { destruct (decide (Z.of_nat k * bytes_per_line < len data)) as [|Hge]; [done|].
    exfalso.
    assert ((len data + bytes_per_line - 1) / bytes_per_line < Z.of_nat k + 1);
      [|lia].
    apply Z.div_lt_upper_bound; [lia|nia]. }
  unfold line_bytes, len in *. rewrite length_take, length_drop. nia.
Qed.

Lemma format_line_at data bytes_per_line k :
  0 < bytes_per_line ->
  format_line data bytes_per_line (Z.of_nat k * bytes_per_line) =
    [" "; " "]%char ++ format_x 4 (Z.of_nat k * bytes_per_line) ++ [" "; " "]%char ++
    ljust (bytes_per_line * 3 - 1)
          (join [" "%char]
                (map (fun b => format_x 2 (byte_to_Z b))
                     (line_bytes data bytes_per_line k))) ++
    [" "; " "]%char ++ map printable (line_bytes data bytes_per_line k).
Proof.
  intros Hn. unfold format_line.
  rewrite slice_at_offset by nia.
  replace (Z.to_nat (Z.of_nat k * bytes_per_line))
    with (k * Z.to_nat bytes_per_line)%nat by nia.
  done.
Qed.

Lemma format_x_byte_length (b : byte) : len (format_x 2 (byte_to_Z b)) = 2.
Proof.
  apply (format_x_length 2 _ 1%nat); [done|].
  pose proof (byte_to_Z_range b). change (16 ^ 2) with 256. lia.
Qed.

Lemma hex_part_length (chunk : bytes) bytes_per_line :
  1 <= len chunk <= bytes_per_line ->
  len (ljust (bytes_per_line * 3 - 1)
             (join [" "%char] (map (fun b => format_x 2 (byte_to_Z b)) chunk))) =
  bytes_per_line * 3 - 1.
Proof.
  intros Hc. apply ljust_length.
  rewrite (join_length _ _ 2).
  - unfold len in *. rewrite length_map. simpl length. lia.
  - apply Forall_fmap, Forall_forall. intros b _. apply format_x_byte_length.
  - destruct chunk; [|done]. unfold len in Hc. simpl in Hc. lia.
Qed.

(** ** The characters of a dump *)

Lemma hex_digit_shown d : shown_as_is (hex_digit d).
Proof.
  unfold hex_digit. generalize (Z.to_nat d). intros m.
  do 16 (destruct m as [|m]; [vm_compute; lia|]).
  destruct m; vm_compute; lia.
Qed.

Lemma hex_shown n : Forall shown_as_is (hex n).
Proof.
  revert n. apply hex_induction. intros n IH. rewrite hex_eq. case_decide.
  - apply Forall_singleton, hex_digit_shown.
  - apply Forall_app. split; [apply IH; lia|].
    apply Forall_singleton, hex_digit_shown.
Qed.

Lemma format_x_shown width n : Forall shown_as_is (format_x width n).
Proof.
  unfold format_x, rjust0. apply Forall_app. split; [|apply hex_shown].
  apply Forall_replicate. vm_compute. lia.
Qed.

Lemma printable_shown b : shown_as_is (printable b).
Proof.
  unfold printable. case_decide as Hb; [|vm_compute; lia].
  unfold shown_as_is, byte_to_Z in *.
  rewrite ascii_of_byte_via_nat, nat_ascii_embedding.
  - rewrite Byte.to_N_via_nat in Hb. lia.
  - pose proof (Byte.to_nat_bounded b). lia.
Qed.

Lemma join_Forall (P : ascii -> Prop) sep parts :
  Forall P sep -> Forall (Forall P) parts -> Forall P (join sep parts).
Proof.
  intros Hsep. induction 1 as [|part parts Hp Hparts IH]; [constructor|].
  destruct parts as [|part' parts]; [done|].
  change (join sep (part :: part' :: parts))
    with (part ++ sep ++ join sep (part' :: parts)).
  by rewrite !Forall_app.
Qed.

Lemma format_line_shown data bytes_per_line i :
  Forall shown_as_is (format_line data bytes_per_line i).
Proof.
  assert (shown_as_is " "%char) as Hsp by (vm_compute; lia).
  assert (Forall shown_as_is [" "; " "]%char) as Hsp2
    by (apply Forall_cons; split; [done|by apply Forall_singleton]).
  unfold format_line. rewrite !Forall_app.
  split; [done|]. split; [apply format_x_shown|]. split; [done|].
  split; [|split; [done|]].
  - unfold ljust. apply Forall_app. split; [|by apply Forall_replicate].
    apply join_Forall; [by apply Forall_singleton|].
    apply Forall_fmap, Forall_forall. intros b _. apply format_x_shown.
  - apply Forall_fmap, Forall_forall. intros b _. apply printable_shown.
Qed.

Lemma newline_not_shown : ~ shown_as_is newline.
Proof. vm_compute. lia. Qed.

(** X9: whatever the bytes, the dump is made of printable ASCII characters and
    of the line breaks between its lines: no byte of the data reaches the
    terminal as a control character. *)
Theorem format_hex_shows_no_control_character data bytes_per_line dump :
  format_hex data bytes_per_line = Return dump ->
  Forall (fun c => c = newline \/ shown_as_is c) dump.
Proof.
  unfold format_hex. destruct (range 0 (len data) bytes_per_line) as [offsets|]; [|done].
  intros [= <-]. apply join_Forall.
  - apply Forall_singleton. by left.
  - apply Forall_fmap, Forall_forall. intros i _.
    eapply Forall_impl; [apply format_line_shown|]. intros c Hc. by right.
Qed.

Lemma format_hex_shows_no_control_character_witness :
  Forall (fun c => c = newline \/ shown_as_is c)
    ([" "; " "; "0"; "0"; "0"; "0"; " "; " "; "0"; "a"; " "; " "; ".";
      "010"; " "; " "; "0"; "0"; "0"; "1"; " "; " "; "4"; "1"; " "; " ";
      "A"]%char).
Proof.
  apply (format_hex_shows_no_control_character (bs [10; 65]) 1).
  vm_compute. reflexivity.
Defined.

Lemma format_line_no_newline data bytes_per_line i :
  newline ∉ format_line data bytes_per_line i.
Proof.
  intros Hin. pose proof (format_line_shown data bytes_per_line i) as Hshown.
  rewrite Forall_forall in Hshown. by apply Hshown, newline_not_shown in Hin.
Qed.

Lemma format_line_length data bytes_per_line k :
  0 < bytes_per_line -> len data <= 65536 ->
  (k < line_count data bytes_per_line)%nat ->
  len (format_line data bytes_per_line (Z.of_nat k * bytes_per_line)) =
    3 * bytes_per_line + 9 + len (line_bytes data bytes_per_line k).
Proof.
  intros Hn Hdata Hk.
  destruct (line_bytes_length data bytes_per_line k Hn Hk) as [Hb Hmin].
  rewrite format_line_at by done.
  rewrite !len_app, hex_part_length by done.
  rewrite (format_x_length 4 _ 3%nat); [|done|].
  - unfold len. rewrite length_map. simpl length. lia.
  - change (16 ^ 4) with 65536. nia.
Qed.



(** X10: the dump of a packet returned by [read_dlt_packet], with the default
    16 bytes per line: every line is between 58 and 73 characters long, so
    the dump fits between the 80-character rules that [main] prints around
    it. *)
Theorem packet_dump_fits_80_columns sock packet sock_after printed :
  HexViewer.read_dlt_packet sock = (Return (Some packet), sock_after, printed) ->
  exists lines,
    format_hex packet 16 = Return (join [newline] lines) /\
    lines <> [] /\
    Forall (fun line => (newline ∉ line) /\ 58 <= len line <= 73) lines.
Proof.
  intros Hrun. destruct (read_dlt_packet_frame _ _ _ _ Hrun) as (n & _ & Hlen & Hn).
  eexists. split; [by apply format_hex_lines|].
  assert (1 <= (len packet + 16 - 1) / 16) as Hcount
    by (apply Z.div_le_lower_bound; lia).
  split.
  - unfold line_count. destruct (Z.to_nat ((len packet + 16 - 1) / 16)) eqn:Hc; [lia|done].
  - apply Forall_fmap, Forall_forall. intros k Hk. simpl.
    apply elem_of_seq in Hk as [_ Hk]. simpl in Hk.
    split; [apply format_line_no_newline|].
    rewrite format_line_length by (done || lia).
    destruct (line_bytes_length packet 16 k ltac:(lia) Hk) as [Hb _]. lia.
Qed.

Lemma packet_dump_fits_80_columns_witness :
  exists lines,
    format_hex (bs [0; 0; 0; 6; 65; 66]) 16 = Return (join [newline] lines) /\
    lines <> [] /\
    Forall (fun line => (newline ∉ line) /\ 58 <= len line <= 73) lines.
Proof.
  apply (packet_dump_fits_80_columns
           [Data (bs [0; 0; 0; 6; 65; 66; 7])] (bs [0; 0; 0; 6; 65; 66])
           [Data (bs [7])] []).
  vm_compute. reflexivity.
Defined.

(** ** The dump loses nothing *)

Lemma hex_digit_inj d1 d2 :
  0 <= d1 < 16 -> 0 <= d2 < 16 -> hex_digit d1 = hex_digit d2 -> d1 = d2.
Proof.
  intros H1 H2. unfold hex_digit.
  assert (Z.to_nat d1 = Z.to_nat d2 -> d1 = d2) as Hback by lia.
  assert (Z.to_nat d1 < 16)%nat as Hm1 by lia.
  assert (Z.to_nat d2 < 16)%nat as Hm2 by lia.
  revert Hback Hm1 Hm2. generalize (Z.to_nat d1) (Z.to_nat d2). intros m1 m2 Hback Hm1 Hm2.
  do 16 (destruct m1 as [|m1]; [do 16 (destruct m2 as [|m2]; [by (intros; auto)|]); lia|]).
  lia.
Qed.

Lemma hex_digit_not_space d : hex_digit d <> " "%char.
Proof.
  unfold hex_digit. generalize (Z.to_nat d). intros m.
  do 16 (destruct m as [|m]; [done|]). by destruct m.
Qed.

(** [f'{b:02x}'] is the two digits of the byte. *)
Lemma format_x_byte (b : byte) :
  format_x 2 (byte_to_Z b) =
    [hex_digit (byte_to_Z b / 16); hex_digit (byte_to_Z b mod 16)].
Proof.
  pose proof (byte_to_Z_range b) as Hb. unfold format_x, rjust0.
  rewrite hex_eq. case_decide as H16.
  - rewrite Z.div_small, Z.mod_small by lia. done.
  - assert (0 <= byte_to_Z b / 16 < 16).
    { split; [apply Z.div_pos; lia|apply Z.div_lt_upper_bound; lia]. }
    rewrite hex_eq, decide_True by lia. done.
Qed.

Lemma byte_to_Z_inj b1 b2 : byte_to_Z b1 = byte_to_Z b2 -> b1 = b2.
Proof.
  unfold byte_to_Z. intros Heq.
  assert (Byte.to_N b1 = Byte.to_N b2) as HN by lia.
  pose proof (Byte.of_to_N b1) as H1. pose proof (Byte.of_to_N b2) as H2.
  congruence.
Qed.

Lemma format_x_byte_inj b1 b2 :
  format_x 2 (byte_to_Z b1) = format_x 2 (byte_to_Z b2) -> b1 = b2.
Proof.
  rewrite !format_x_byte. intros [= Hhi Hlo].
  pose proof (byte_to_Z_range b1). pose proof (byte_to_Z_range b2).
  apply hex_digit_inj in Hhi;
    [|split; [apply Z.div_pos; lia|apply Z.div_lt_upper_bound; lia]..].
  apply hex_digit_inj in Hlo; [|apply Z.mod_pos_bound; lia..].
  apply byte_to_Z_inj.
  rewrite (Z.div_mod (byte_to_Z b1) 16), (Z.div_mod (byte_to_Z b2) 16) by lia.
  by rewrite Hhi, Hlo.
Qed.

(** The hexadecimal column, padded with spaces on the right, determines the
    bytes of the line. *)
Lemma hex_column_inj (chunk1 : bytes) :
  forall (chunk2 : bytes) pad1 pad2,
  join [" "%char] (map (fun b => format_x 2 (byte_to_Z b)) chunk1) ++
    replicate pad1 " "%char =
  join [" "%char] (map (fun b => format_x 2 (byte_to_Z b)) chunk2) ++
    replicate pad2 " "%char ->
  chunk1 = chunk2.
Proof.
  assert (forall (b : byte) (chunk : bytes),
    join [" "%char] (map (fun b => format_x 2 (byte_to_Z b)) (b :: chunk)) =
    hex_digit (byte_to_Z b / 16) :: hex_digit (byte_to_Z b mod 16) ::
    match chunk with
    | [] => []
    | _ :: _ => " "%char ::
                join [" "%char] (map (fun b => format_x 2 (byte_to_Z b)) chunk)
    end) as Hcons.
  { intros b [|b' chunk]; cbn [map join]; by rewrite format_x_byte. }
  assert (forall (b : byte) (chunk : bytes) pad tail,
    replicate pad " "%char =
    join [" "%char] (map (fun b => format_x 2 (byte_to_Z b)) (b :: chunk)) ++ tail ->
    False) as Hspaces.
  { intros b chunk pad tail. rewrite Hcons. destruct pad; [done|].
    intros [= Hd _]. by eapply hex_digit_not_space. }
  induction chunk1 as [|b1 chunk1 IH]; intros [|b2 chunk2] pad1 pad2 Heq.
  - done.
  - exfalso. by eapply (Hspaces b2 chunk2 pad1).
  - exfalso. symmetry in Heq. by eapply (Hspaces b1 chunk1 pad2).
  - rewrite !Hcons in Heq. injection Heq as Hhi Hlo Htail.
    assert (b1 = b2) as <-.
    { apply format_x_byte_inj. rewrite !format_x_byte. by rewrite Hhi, Hlo. }
    f_equal.
    destruct chunk1 as [|b1' chunk1], chunk2 as [|b2' chunk2].
    + done.
    + exfalso. destruct pad1 as [|pad1]; [done|]. injection Htail as Htail.
      by eapply (Hspaces b2' chunk2 pad1).
    + exfalso. destruct pad2 as [|pad2]; [done|]. injection Htail as Htail.
      symmetry in Htail. by eapply (Hspaces b1' chunk1 pad2).
    + injection Htail as Htail. by eapply IH.
Qed.

Lemma format_line_inj data1 data2 bytes_per_line k :
  0 < bytes_per_line ->
  (k < line_count data1 bytes_per_line)%nat ->
  (k < line_count data2 bytes_per_line)%nat ->
  format_line data1 bytes_per_line (Z.of_nat k * bytes_per_line) =
  format_line data2 bytes_per_line (Z.of_nat k * bytes_per_line) ->
  line_bytes data1 bytes_per_line k = line_bytes data2 bytes_per_line k.
Proof.
  intros Hn Hk1 Hk2. rewrite !format_line_at by done.
  intros Heq. do 3 apply app_inv_head in Heq.
  destruct (line_bytes_length data1 bytes_per_line k Hn Hk1) as [Hb1 _].
  destruct (line_bytes_length data2 bytes_per_line k Hn Hk2) as [Hb2 _].
  apply app_inj_1 in Heq as [Heq _].
  - unfold ljust in Heq. by eapply hex_column_inj.
  - pose proof (hex_part_length _ _ Hb1). pose proof (hex_part_length _ _ Hb2).
    unfold len in *. lia.
Qed.

(** Lines without line break, none of them empty, are recovered from their
    [join]. *)
Lemma join_newline_inj (lines1 : list str) :
  forall lines2,
  Forall (fun line => (newline ∉ line) /\ line <> []) lines1 ->
  Forall (fun line => (newline ∉ line) /\ line <> []) lines2 ->
  join [newline] lines1 = join [newline] lines2 -> lines1 = lines2.
Proof.
  assert (forall (line : str) lines,
    join [newline] (line :: lines) =
    line ++ match lines with [] => [] | _ :: _ => newline :: join [newline] lines end)
    as Hcons.
  { intros line [|line' lines]; [by rewrite app_nil_r|done]. }
  induction lines1 as [|line1 lines1 IH]; intros [|line2 lines2] H1 H2 Heq.
  - done.
  - apply Forall_cons in H2 as [[_ Hne] _]. exfalso.
    symmetry in Heq. revert Heq. by apply join_cons_nonempty.
  - apply Forall_cons in H1 as [[_ Hne] _]. exfalso.
    revert Heq. by apply join_cons_nonempty.
  - apply Forall_cons in H1 as [[Hn1 _] H1]. apply Forall_cons in H2 as [[Hn2 _] H2].
    rewrite !Hcons in Heq.
    destruct lines1 as [|line1' lines1], lines2 as [|line2' lines2].
    + rewrite !app_nil_r in Heq. by subst.
    + exfalso. rewrite app_nil_r in Heq. apply Hn1. rewrite Heq.
      apply elem_of_app. right. left.
    + exfalso. rewrite app_nil_r in Heq. apply Hn2. rewrite <- Heq.
      apply elem_of_app. right. left.
    + destruct (split_past newline line1 (newline :: join [newline] (line1' :: lines1))
                  line2 (join [newline] (line2' :: lines2)) Hn1 Heq)
        as (mid & Hline & Hrest).
      destruct mid as [|c mid].
      * rewrite app_nil_r in Hline. subst line2. injection Hrest as Hrest.
        f_equal. by apply IH.
      * exfalso. injection Hrest as <- _. apply Hn2. rewrite Hline.
        apply elem_of_app. right. left.
Qed.

Lemma line_count_covers (data : bytes) bytes_per_line :
  0 < bytes_per_line ->
  (length data <= line_count data bytes_per_line * Z.to_nat bytes_per_line)%nat.
Proof.
  intros Hn. unfold line_count.
  pose proof (len_nonneg data).
  assert (len data <= (len data + bytes_per_line - 1) / bytes_per_line * bytes_per_line).
  { pose proof (Z.div_mod (len data + bytes_per_line - 1) bytes_per_line ltac:(lia)).
    pose proof (Z.mod_pos_bound (len data + bytes_per_line - 1) bytes_per_line Hn). nia. }
  assert (0 <= (len data + bytes_per_line - 1) / bytes_per_line)
    by (apply Z.div_pos; lia).
  unfold len in *. nia.
Qed.

(** The byte at position [j], read on its line. *)
Lemma lookup_line_bytes (data : bytes) bytes_per_line j :
  0 < bytes_per_line ->
  data !! j =
    line_bytes data bytes_per_line (j / Z.to_nat bytes_per_line)
      !! (j mod Z.to_nat bytes_per_line)%nat.
Proof.
  intros Hn. unfold line_bytes.
  assert (Z.to_nat bytes_per_line <> 0%nat) as Hnz by lia.
  rewrite lookup_take_lt by (by apply Nat.mod_upper_bound).
  rewrite lookup_drop. f_equal.
  rewrite (Nat.div_mod_eq j (Z.to_nat bytes_per_line)) at 1. lia.
Qed.

(** X11: two sequences of bytes with the same dump are the same: the dump loses
    no byte and no position. *)
Theorem format_hex_injective data1 data2 bytes_per_line :
  0 < bytes_per_line ->
  format_hex data1 bytes_per_line = format_hex data2 bytes_per_line ->
  data1 = data2.
Proof.
  intros Hn. rewrite !format_hex_lines by done. intros Heq%Return_eq.
  apply join_newline_inj in Heq.
  - pose proof (f_equal length Heq) as Hcount.
    rewrite !length_map, !length_seq in Hcount.
    apply list_eq. intros j.
    rewrite (lookup_line_bytes data1 bytes_per_line j Hn),
            (lookup_line_bytes data2 bytes_per_line j Hn).
    set (k := (j / Z.to_nat bytes_per_line)%nat).
    destruct (decide (k < line_count data1 bytes_per_line)%nat) as [Hk|Hk].
    + rewrite (format_line_inj data1 data2 bytes_per_line k); try done; [lia|].
      apply (f_equal (fun lines => lines !! k)) in Heq.
      rewrite !list_lookup_fmap, !lookup_seq_lt in Heq by lia.
      change (Some (format_line data1 bytes_per_line (Z.of_nat k * bytes_per_line)) =
              Some (format_line data2 bytes_per_line (Z.of_nat k * bytes_per_line)))
        in Heq.
      congruence.
    + rewrite <- !lookup_line_bytes by done.
      pose proof (line_count_covers data1 bytes_per_line Hn).
      pose proof (line_count_covers data2 bytes_per_line Hn).
      assert (line_count data1 bytes_per_line * Z.to_nat bytes_per_line <= j)%nat.
      { pose proof (Nat.div_mod_eq j (Z.to_nat bytes_per_line)). subst k. nia. }
      rewrite !lookup_ge_None_2 by lia. done.
  - apply Forall_fmap, Forall_forall. intros k _. simpl.
    split; [apply format_line_no_newline|].
    by destruct (format_line_starts data1 bytes_per_line (Z.of_nat k * bytes_per_line))
      as [rest ->].
  - apply Forall_fmap, Forall_forall. intros k _. simpl.
    split; [apply format_line_no_newline|].
    by destruct (format_line_starts data2 bytes_per_line (Z.of_nat k * bytes_per_line))
      as [rest ->].
Qed.

Lemma format_hex_injective_witness : bs [65; 0; 255] = bs [65; 0; 255].
Proof.
  apply (format_hex_injective (bs [65; 0; 255]) (bs [65; 0; 255]) 16).
  - lia.
  - reflexivity.
Defined.

End HexDumpFacts.

(** * More on the ingest task *)

Section IngestMore.
Import Bridge.

Lemma quiet_not_an_attempt body : Forall quiet body -> Forall not_an_attempt body.
Proof. intros Hq. eapply Forall_impl; [exact Hq|]. by intros [[]| | | | |]. Qed.

Lemma not_an_attempt_not_in w l : Forall not_an_attempt l -> OpenConnection w ∉ l.
Proof. intros Hl Hin. rewrite Forall_forall in Hl. by apply Hl in Hin. Qed.

Lemma handler_not_an_attempt e : Forall not_an_attempt (handler e).1.
Proof. destruct e; simpl; repeat constructor. Qed.

Lemma released_not_an_attempt writer : Forall not_an_attempt (released writer).
Proof. destruct writer; simpl; repeat constructor. Qed.

(** The end of a turn in which the connection was up, from the moment the
    inner loop is left: the writer is closed before anything is opened. *)
Lemma connection_end_closes reader script opened :
  exists mid rest,
    match stream_end reader with
    | None => CloseWriter opened :: read_from_dlt_loop script (Some opened) (S opened)
    | Some CancelledError => [CloseWriter opened]
    | Some ConnectionRefusedError =>
        [Print ConnectionRefused; Sleep 5; CloseWriter opened;
         Propagate ConnectionRefusedError]
    | Some OtherException =>
        [Print ErrorLine; Sleep 5; CloseWriter opened; Propagate OtherException]
    end = mid ++ CloseWriter opened :: rest /\
    Forall not_an_attempt mid.
Proof.
  destruct (stream_end reader) as [[]|].
  - exists [], []. split; [done|constructor].
  - exists [Print ConnectionRefused; Sleep 5], [Propagate ConnectionRefusedError].
    split; [done|repeat constructor].
  - exists [Print ErrorLine; Sleep 5], [Propagate OtherException].
    split; [done|repeat constructor].
  - exists [], (read_from_dlt_loop script (Some opened) (S opened)).
    split; [done|constructor].
Qed.

Lemma read_from_dlt_loop_closes script :
  forall writer opened before w after,
  read_from_dlt_loop script writer opened = before ++ OpenConnection (Some w) :: after ->
  exists mid rest, after = mid ++ CloseWriter w :: rest /\ Forall not_an_attempt mid.
Proof.
  induction script as [|[e|reader] script IH]; intros writer opened before w after Heq.
  - by destruct before.
  - rewrite read_from_dlt_loop_raises, !app_assoc in Heq.
    match type of Heq with ?l ++ ?t = _ =>
      destruct (split_past (OpenConnection (Some w)) l t before after)
        as (mid & _ & Hmid); [|done|] end.
    { intros [[Hin|Hin]%elem_of_app|Hin]%elem_of_app.
      - by apply elem_of_cons in Hin as [?|[?|?%elem_of_nil]%elem_of_cons].
      - by apply (not_an_attempt_not_in (Some w) _ (handler_not_an_attempt e)).
      - by apply (not_an_attempt_not_in (Some w) _ (released_not_an_attempt writer)). }
    destruct (handler e).2; [by eapply IH|by destruct mid].
  - rewrite read_from_dlt_loop_opened in Heq.
    destruct (read_loop_spec reader) as (_ & _ & _ & Hquiet).
    set (body := (read_loop reader).1) in *.
    destruct (connection_end_closes reader script opened) as (mid0 & rest0 & Hend & Hmid0).
    destruct before as [|a [|a' before]]; simpl in Heq.
    + done.
    + injection Heq as _ <- <-.
      exists (Print ConnectedToDaemon :: body ++ mid0), rest0. split.
      * simpl. f_equal. by rewrite Hend, <- app_assoc.
      * constructor; [done|]. apply Forall_app. split; [|done].
        by apply quiet_not_an_attempt.
    + injection Heq as _ _ Heq.
      match type of Heq with _ :: _ ++ ?t = _ =>
        destruct (split_past (OpenConnection (Some w))
                    (Print ConnectedToDaemon :: body) t before after)
          as (mid & _ & Hmid); [|done|] end.
      { apply not_an_attempt_not_in. constructor; [done|].
        by apply quiet_not_an_attempt. }
      destruct (stream_end reader) as [[]|].
      * by destruct mid as [|? [|? ?]].
      * exfalso.
        assert (OpenConnection (Some w) ∈
                  [Print ConnectionRefused; Sleep 5; CloseWriter opened;
                   Propagate ConnectionRefusedError]) as Hin
          by (rewrite Hmid; apply elem_of_app; right; left).
        repeat (apply elem_of_cons in Hin as [?|Hin]; [done|]).
        by apply elem_of_nil in Hin.
      * exfalso.
        assert (OpenConnection (Some w) ∈
                  [Print ErrorLine; Sleep 5; CloseWriter opened;
                   Propagate OtherException]) as Hin
          by (rewrite Hmid; apply elem_of_app; right; left).
        repeat (apply elem_of_cons in Hin as [?|Hin]; [done|]).
        by apply elem_of_nil in Hin.
      * destruct mid as [|a'' mid]; simpl in Hmid; [done|].
        injection Hmid as _ Hmid. by eapply IH.
Qed.

(** X12: every connection that [read_from_dlt] opens is closed before it calls
    [open_connection] again: whatever ends the connection, the [finally]
    clause releases its writer first. *)
Theorem opened_connection_is_closed script before w after :
  read_from_dlt script = before ++ OpenConnection (Some w) :: after ->
  exists mid rest, after = mid ++ CloseWriter w :: rest /\ Forall not_an_attempt mid.
Proof. apply read_from_dlt_loop_closes. Qed.

Lemma opened_connection_is_closed_witness :
  exists mid rest,
    [Print ConnectedToDaemon; Put (bs [1]); Print (Received (bs [1]));
     Print ErrorLine; Sleep 5; CloseWriter 0; Propagate OtherException] =
      mid ++ CloseWriter 0 :: rest /\
    Forall not_an_attempt mid.
Proof.
  apply (opened_connection_is_closed
           [Opened [Data (bs [1]); Fault OtherException]; OpenRaises CancelledError]
           [Print Connecting] 0%nat).
  vm_compute. reflexivity.
Defined.

(** After a turn that ends the task, the script does not matter. *)
Lemma read_from_dlt_loop_last_turn a script before :
  cancelled a \/ read_fails a ->
  forall writer opened,
  read_from_dlt_loop (before ++ a :: script) writer opened =
  read_from_dlt_loop (before ++ [a]) writer opened.
Proof.
  intros Ha. induction before as [|a' before IH]; intros writer opened.
  - destruct a as [e|reader]; simpl app.
    + destruct Ha as [Ha|Ha]; [|done]. simpl in Ha. subst e.
      by rewrite !read_from_dlt_loop_raises.
    + rewrite !read_from_dlt_loop_opened.
      destruct Ha as [Ha|(e & Ha & He)]; simpl in Ha; rewrite Ha; [done|].
      by destruct e.
  - rewrite <- !app_comm_cons. destruct a' as [e|reader].
    + by rewrite !read_from_dlt_loop_raises, IH.
    + by rewrite !read_from_dlt_loop_opened, IH.
Qed.

(** X13: the cancellation of the task, while it connects or while it reads, ends
    it: nothing of what the daemon would do next is attempted. *)
Theorem cancellation_ends_the_task a script before :
  cancelled a ->
  read_from_dlt (before ++ a :: script) = read_from_dlt (before ++ [a]).
Proof. intros Ha. apply read_from_dlt_loop_last_turn. by left. Qed.

Lemma cancellation_ends_the_task_witness :
  read_from_dlt ([OpenRaises ConnectionRefusedError] ++
                 Opened [Data (bs [1]); Fault CancelledError] ::
                 [Opened [Data (bs [2])]]) =
  read_from_dlt ([OpenRaises ConnectionRefusedError] ++
                 [Opened [Data (bs [1]); Fault CancelledError]]).
Proof.
  apply (cancellation_ends_the_task
           (Opened [Data (bs [1]); Fault CancelledError]) [Opened [Data (bs [2])]]
           [OpenRaises ConnectionRefusedError]).
  reflexivity.
Defined.

Lemma connection_attempts_app l k :
  connection_attempts (l ++ k) = connection_attempts l ++ connection_attempts k.
Proof. apply omap_app. Qed.

Lemma connection_attempts_none l :
  Forall not_an_attempt l -> connection_attempts l = [].
Proof.
  induction 1 as [|a l Ha _ IH]; [done|]. by destruct a.
Qed.

(** A turn that goes on to the next: [open_connection] raised something
    else than the cancellation, or the daemon closed the stream. *)
Lemma next_turn_cases a :
  ~ cancelled a -> ~ read_fails a ->
  match a with
  | OpenRaises e => (handler e).2 = true
  | Opened reader => stream_end reader = None
  end.
Proof.
  intros Hc Hr. destruct a as [e|reader]; simpl in *.
  - by destruct e.
  - destruct (stream_end reader) as [e|]; [|done].
    destruct (decide (e = CancelledError)) as [->|He]; [done|].
    exfalso. apply Hr. eauto.
Qed.

Lemma read_from_dlt_loop_attempts script :
  forall writer opened,
  Forall (fun a => ~ cancelled a /\ ~ read_fails a) script ->
  connection_attempts (read_from_dlt_loop script writer opened) =
  writers_bound script opened.
Proof.
  induction script as [|a script IH]; intros writer opened Hscript; [done|].
  apply Forall_cons in Hscript as [[Hc Hr] Hscript].
  pose proof (next_turn_cases a Hc Hr) as Hnext. destruct a as [e|reader].
  - rewrite read_from_dlt_loop_raises, Hnext, !connection_attempts_app.
    rewrite (connection_attempts_none (handler e).1) by apply handler_not_an_attempt.
    rewrite (connection_attempts_none (released writer))
      by apply released_not_an_attempt.
    simpl. by rewrite IH.
  - rewrite read_from_dlt_loop_opened, Hnext, !connection_attempts_app.
    destruct (read_loop_spec reader) as (_ & _ & _ & Hquiet).
    rewrite (connection_attempts_none (read_loop reader).1)
      by (by apply quiet_not_an_attempt).
    simpl. by rewrite IH.
Qed.

Lemma writers_bound_length script opened :
  length (writers_bound script opened) = length script.
Proof.
  revert opened. induction script as [|[e|reader] script IH]; intros opened; simpl;
    [done| |]; by rewrite IH.
Qed.

(** X14: neither a failure to connect nor the daemon closing the stream makes
    [read_from_dlt] give up: as long as the task is not cancelled and no
    read raises, it calls [open_connection] once for each turn that the
    daemon allows, however many of them fail, and each call that returns
    binds a new writer. *)
Theorem every_attempt_is_made script :
  Forall (fun a => ~ cancelled a /\ ~ read_fails a) script ->
  connection_attempts (read_from_dlt script) = writers_bound script 0 /\
  length (connection_attempts (read_from_dlt script)) = length script.
Proof.
  intros Hscript. unfold read_from_dlt.
  rewrite read_from_dlt_loop_attempts by done.
  split; [done|]. apply writers_bound_length.
Qed.

Lemma every_attempt_is_made_witness :
  connection_attempts
    (read_from_dlt [OpenRaises ConnectionRefusedError;
                    Opened [Data (bs [1])];
                    OpenRaises OtherException; Opened []]) =
  writers_bound [OpenRaises ConnectionRefusedError;
                 Opened [Data (bs [1])];
                 OpenRaises OtherException; Opened []] 0 /\
  length (connection_attempts
            (read_from_dlt [OpenRaises ConnectionRefusedError;
                            Opened [Data (bs [1])];
                            OpenRaises OtherException; Opened []])) =
  length [OpenRaises ConnectionRefusedError;
          Opened [Data (bs [1])];
          OpenRaises OtherException; Opened []].
Proof.
  apply (every_attempt_is_made
           [OpenRaises ConnectionRefusedError;
            Opened [Data (bs [1])];
            OpenRaises OtherException; Opened []]).
  repeat (apply Forall_cons; split; [split|]); try apply Forall_nil;
    vm_compute; try discriminate; try tauto; intros (e & He & _); discriminate He.
Defined.

Lemma read_from_dlt_loop_read_error reader e before :
  stream_end reader = Some e -> e <> CancelledError ->
  Forall (fun a => ~ cancelled a /\ ~ read_fails a) before ->
  forall writer opened,
  exists front w,
    read_from_dlt_loop (before ++ [Opened reader]) writer opened =
    front ++ [Sleep 5; CloseWriter w; Propagate e].
Proof.
  intros Hend He. induction 1 as [|a before [Hc Hr] _ IH]; intros writer opened.
  - simpl app. rewrite read_from_dlt_loop_opened, Hend.
    destruct e; [done| |].
    + exists ([Print Connecting; OpenConnection (Some opened); Print ConnectedToDaemon] ++
              (read_loop reader).1 ++ [Print ConnectionRefused]), opened.
      by rewrite <- !app_assoc.
    + exists ([Print Connecting; OpenConnection (Some opened); Print ConnectedToDaemon] ++
              (read_loop reader).1 ++ [Print ErrorLine]), opened.
      by rewrite <- !app_assoc.
  - rewrite <- app_comm_cons.
    pose proof (next_turn_cases a Hc Hr) as Hnext. destruct a as [e'|reader'].
    + rewrite read_from_dlt_loop_raises, Hnext.
      destruct (IH writer opened) as (front & w & ->).
      exists ([Print Connecting; OpenConnection None] ++ (handler e').1 ++
              released writer ++ front), w.
      by rewrite <- !app_assoc.
    + rewrite read_from_dlt_loop_opened, Hnext.
      destruct (IH (Some opened) (S opened)) as (front & w & ->).
      exists ([Print Connecting; OpenConnection (Some opened); Print ConnectedToDaemon] ++
              (read_loop reader').1 ++ CloseWriter opened :: front), w.
      by rewrite <- !app_assoc.
Qed.

(** X19: an exception raised by a read ends the task.  The handler reports it
    and sleeps, the [finally] clause closes the writer, and
    [wait_closed()] raises the exception again, out of the loop: the last
    things done are the sleep, the close and the exception leaving the
    coroutine, and no connection is attempted any more, whatever the daemon
    would do next. *)
Theorem read_error_ends_the_task reader e script before :
  stream_end reader = Some e -> e <> CancelledError ->
  read_from_dlt (before ++ Opened reader :: script) =
  read_from_dlt (before ++ [Opened reader]) /\
  (Forall (fun a => ~ cancelled a /\ ~ read_fails a) before ->
   exists front w,
     read_from_dlt (before ++ [Opened reader]) =
     front ++ [Sleep 5; CloseWriter w; Propagate e]).
Proof.
  intros Hend He. split.
  - apply read_from_dlt_loop_last_turn. right. simpl. eauto.
  - intros Hbefore. by apply read_from_dlt_loop_read_error.
Qed.

Lemma read_error_ends_the_task_witness :
  read_from_dlt ([Opened []] ++
                 Opened [Data (bs [1]); Fault OtherException] ::
                 [Opened [Data (bs [2])]]) =
  read_from_dlt ([Opened []] ++ [Opened [Data (bs [1]); Fault OtherException]]) /\
  (Forall (fun a => ~ cancelled a /\ ~ read_fails a) [Opened []] ->
   exists front w,
     read_from_dlt ([Opened []] ++ [Opened [Data (bs [1]); Fault OtherException]]) =
     front ++ [Sleep 5; CloseWriter w; Propagate OtherException]).
Proof.
  apply (read_error_ends_the_task
           [Data (bs [1]); Fault OtherException] OtherException
           [Opened [Data (bs [2])]] [Opened []]).
  - reflexivity.
  - discriminate.
Defined.

End IngestMore.

(** * More on the broadcaster *)

Section BroadcasterMore.
Import Bridge.

Ltac unfold_step H :=
  cbv [step broadcast_messages message_queue_put websocket_handler_add
       websocket_handler_discard] in H; simpl in H.

(** One step, seen from any websocket: nothing is sent to it that was not
    waiting for it, in that order. *)
Lemma step_sends_at_most_once ws s l s' :
  well_formed s -> step s l = Some s' ->
  received ws s' ++ in_flight ws s' ++ message_queue s' `sublist_of`
  (received ws s ++ in_flight ws s ++ message_queue s) ++ queue_puts [l].
Proof.
  intros [Hc Hp] Hstep. unfold received, in_flight.
  destruct l; unfold_step Hstep.
  - injection Hstep as <-. simpl. by rewrite <- !app_assoc.
  - injection Hstep as <-. simpl. by rewrite app_nil_r.
  - injection Hstep as <-. simpl. by rewrite app_nil_r.
  - destruct (pc s) eqn:Hpc; try done.
    destruct (message_queue s) as [|data queue]; [done|].
    case_decide as Hen; [|done]. case_decide as Hne; injection Hstep as <-; simpl.
    + rewrite in_flight_next_send, app_nil_r. apply sublist_app; [done|].
      case_decide; [done|]. by apply sublist_cons.
    + rewrite app_nil_r. apply sublist_app; [done|]. by apply sublist_cons.
  - destruct (pc s) as [|data [|w todo]|] eqn:Hpc; try done.
    injection Hstep as <-. simpl in *. destruct Hp as (Hnd & _ & _).
    apply NoDup_cons in Hnd as [Hw Hnd].
    rewrite in_flight_next_send, received_snoc, app_nil_r.
    destruct (decide (w = ws)) as [->|Hneq].
    + rewrite (decide_True (P := ws ∈ ws :: todo)) by left.
      rewrite (decide_False (P := ws ∈ todo)) by done.
      by rewrite <- !app_assoc.
    + rewrite app_nil_r.
      destruct (decide (ws ∈ todo)) as [Ht|Ht].
      * by rewrite (decide_True (P := ws ∈ w :: todo)) by (by right).
      * rewrite (decide_False (P := ws ∈ w :: todo)); [done|].
        intros [?|?]%elem_of_cons; [congruence|done].
  - destruct (pc s) as [|data [|w todo]|] eqn:Hpc; try done.
    injection Hstep as <-. simpl in *. destruct Hp as (Hnd & _ & _).
    apply NoDup_cons in Hnd as [Hw Hnd].
    rewrite in_flight_next_send, app_nil_r.
    apply sublist_app; [done|].
    destruct (decide (w = ws)) as [->|Hneq].
    + rewrite (decide_True (P := ws ∈ ws :: todo)) by left.
      rewrite (decide_False (P := ws ∈ todo)) by done.
      by apply sublist_cons.
    + destruct (decide (ws ∈ todo)) as [Ht|Ht].
      * by rewrite (decide_True (P := ws ∈ w :: todo)) by (by right).
      * rewrite (decide_False (P := ws ∈ w :: todo)); [done|].
        intros [?|?]%elem_of_cons; [congruence|done].
  - destruct (pc s) eqn:Hpc; try done; injection Hstep as <-; simpl;
      rewrite app_nil_r; [done|].
    apply sublist_app; [done|]. case_decide; [|done]. by apply sublist_cons.
Qed.

Lemma run_sends_at_most_once ws s ls s' :
  well_formed s -> run s ls = Some s' ->
  received ws s' ++ in_flight ws s' ++ message_queue s' `sublist_of`
  received ws s ++ in_flight ws s ++ message_queue s ++ queue_puts ls.
Proof.
  revert s. induction ls as [|l ls IH]; intros s Hwf Hrun; simpl in Hrun.
  - injection Hrun as <-. simpl. by rewrite app_nil_r.
  - destruct (step s l) as [s1|] eqn:Hstep; [|done].
    pose proof (step_sends_at_most_once ws s l s1 Hwf Hstep) as H1.
    pose proof (IH s1 (step_well_formed _ _ _ Hwf Hstep) Hrun) as H2.
    etrans; [exact H2|].
    rewrite (queue_puts_cons l ls).
    rewrite !app_assoc. apply sublist_app; [|done].
    rewrite <- !app_assoc. by rewrite <- !app_assoc in H1.
Qed.

(** X15: whether it is there from the start, joins late, leaves or fails, a
    websocket is sent entries of the queue in the order in which they were
    put there, and no entry more than once: what it has received is a
    subsequence of the input. *)
Theorem delivery_is_at_most_once_and_in_order ws s ls s' :
  well_formed s -> run s ls = Some s' ->
  received ws s' `sublist_of`
  received ws s ++ in_flight ws s ++ message_queue s ++ queue_puts ls.
Proof.
  intros Hwf Hrun. etrans; [|by eapply run_sends_at_most_once].
  by apply sublist_inserts_r.
Qed.

Lemma delivery_is_at_most_once_and_in_order_witness :
  received 1 three_sent `sublist_of`
  received 1 two_clients ++ in_flight 1 two_clients ++
  message_queue two_clients ++ queue_puts three_entries.
Proof.
  apply (delivery_is_at_most_once_and_in_order 1 two_clients three_entries three_sent).
  - split; [|exact I]. simpl. intros ws Hin.
    apply elem_of_union in Hin as [Hin|Hin]; apply elem_of_singleton in Hin; lia.
  - vm_compute. reflexivity.
Defined.

Lemma with_result_all_true order :
  with_result true order (replicate (length order) true) = order.
Proof.
  unfold with_result. induction order as [|w order IH]; [done|].
  simpl. f_equal. exact IH.
Qed.

Lemma received_of_pass (ws : nat) (data : bytes) order :
  NoDup order ->
  omap (fun '(w, d) => if decide (w = ws) then Some d else None)
       (map (fun w => (w, data)) order) =
  if decide (ws ∈ order) then [data] else [].
Proof.
  induction 1 as [|w order Hw Hnd IH].
  - destruct (decide (ws ∈ [])) as [Hin|]; [by apply elem_of_nil in Hin|done].
  - simpl. change (list_omap _ _ ?f ?l) with (omap f l).
    rewrite IH. destruct (decide (w = ws)) as [->|Hne].
    + rewrite (decide_False (P := ws ∈ order)) by done.
      by rewrite (decide_True (P := ws ∈ ws :: order)) by left.
    + destruct (decide (ws ∈ order)) as [Hin|Hin].
      * by rewrite (decide_True (P := ws ∈ w :: order)) by (by right).
      * rewrite (decide_False (P := ws ∈ w :: order)); [done|].
        intros [?|?]%elem_of_cons; [congruence|done].
Qed.

(** X16: a pass in which no send raises reaches every websocket registered when
    the data was taken from the queue, once each, whatever joins or leaves
    meanwhile; a websocket that joins during the pass is not sent the data
    of that pass. *)
Theorem complete_pass_reaches_every_client s data queue order ls s' :
  well_formed s ->
  pc s = Getting -> message_queue s = data :: queue ->
  websocket_clients s <> ∅ ->
  run s (Get order :: ls) = Some s' -> Forall within_pass ls ->
  send_results ls = replicate (length order) true ->
  pc s' = Getting /\
  (forall ws, ws ∈ websocket_clients s -> received ws s' = received ws s ++ [data]) /\
  (forall ws, ws ∉ websocket_clients s -> received ws s' = received ws s).
Proof.
  intros [Hc _] Hpc Hq Hne Hrun Hpass Hall. simpl in Hrun. unfold_step Hrun.
  rewrite Hpc, Hq in Hrun.
  case_decide as Hen; [|done]. rewrite decide_True in Hrun by done.
  match type of Hrun with run ?st _ = _ => set (s1 := st) in * end.
  destruct (rest_of_pass s1 data order ls s') as (_ & Hpc' & Hsent & _); try done.
  { intros ws Hin. apply Hc. by apply (enumerates_elem _ _ _ Hen). }
  rewrite Hall, length_replicate in Hpc'. rewrite drop_all in Hpc'.
  rewrite Hall, with_result_all_true in Hsent.
  assert (forall ws, received ws s' =
            received ws s ++ if decide (ws ∈ order) then [data] else []) as Hrec.
  { intros ws. unfold received. rewrite Hsent, omap_app. simpl.
    rewrite received_of_pass by apply Hen. done. }
  split; [done|]. split; intros ws Hin; rewrite Hrec.
  - by rewrite decide_True by (by apply (enumerates_elem _ _ _ Hen)).
  - rewrite decide_False; [by rewrite app_nil_r|].
    by rewrite (enumerates_elem _ _ _ Hen).
Qed.

Lemma complete_pass_reaches_every_client_witness :
  pc pass_done = Getting /\
  (forall ws, ws ∈ websocket_clients pass_start ->
              received ws pass_done = received ws pass_start ++ [bs [7]]) /\
  (forall ws, ws ∉ websocket_clients pass_start ->
              received ws pass_done = received ws pass_start).
Proof.
  refine (complete_pass_reaches_every_client pass_start (bs [7]) [] [1%nat; 0%nat]
            [SendReturns; ClientJoins; ClientLeaves 1; SendReturns] pass_done
            _ _ _ _ _ _ _).
  - split; [|exact I]. simpl. intros ws Hin.
    apply elem_of_union in Hin as [Hin|Hin]; apply elem_of_singleton in Hin; lia.
  - reflexivity.
  - reflexivity.
  - simpl. intros Hempty.
    assert (0%nat ∈ (∅ : gset nat)) as Hin
      by (rewrite <- Hempty; apply elem_of_union_l; by apply elem_of_singleton).
    by apply not_elem_of_empty in Hin.
  - vm_compute. reflexivity.
  - repeat constructor.
  - reflexivity.
Defined.

Lemma step_takes_from_the_front s l s' :
  step s l = Some s' ->
  exists taken,
    message_queue s ++ queue_puts [l] = taken ++ message_queue s' /\
    (not_a_get l -> taken = []).
Proof.
  intros Hstep. destruct l; unfold_step Hstep.
  - injection Hstep as <-. by exists [].
  - injection Hstep as <-. exists []. by rewrite app_nil_r.
  - injection Hstep as <-. exists []. by rewrite app_nil_r.
  - destruct (pc s); try done. destruct (message_queue s) as [|data queue]; [done|].
    case_decide; [|done]. case_decide; injection Hstep as <-;
      exists [data]; by rewrite app_nil_r.
  - destruct (pc s) as [|data [|w todo]|]; try done. injection Hstep as <-.
    exists []. by rewrite app_nil_r.
  - destruct (pc s) as [|data [|w todo]|]; try done. injection Hstep as <-.
    exists []. by rewrite app_nil_r.
  - destruct (pc s); try done; injection Hstep as <-; exists []; by rewrite app_nil_r.
Qed.

(** X17: the queue gives its entries from the front and in the order of the
    puts, one for each [get()] of the broadcaster, and a put is never
    refused or dropped: as long as the broadcaster takes nothing, because a
    send is slow or because the task has ended, all that is put stays in
    the queue. *)
Theorem queue_is_consumed_from_the_front s ls s' :
  run s ls = Some s' ->
  message_queue s' `suffix_of` message_queue s ++ queue_puts ls /\
  (Forall not_a_get ls -> message_queue s' = message_queue s ++ queue_puts ls).
Proof.
  revert s. induction ls as [|l ls IH]; intros s Hrun; simpl in Hrun.
  - injection Hrun as <-. simpl. rewrite app_nil_r. by split.
  - destruct (step s l) as [s1|] eqn:Hstep; [|done].
    destruct (step_takes_from_the_front s l s1 Hstep) as (taken & Htaken & Hnone).
    destruct (IH s1 Hrun) as [[k Hsuffix] Hkeep].
    rewrite (queue_puts_cons l ls), app_assoc, Htaken. split.
    + exists (taken ++ k). by rewrite <- !app_assoc, Hsuffix.
    + intros [Hl Hls]%Forall_cons. rewrite (Hnone Hl). by rewrite Hkeep.
Qed.

Lemma queue_is_consumed_from_the_front_witness :
  message_queue three_sent `suffix_of`
    message_queue two_clients ++ queue_puts three_entries /\
  (Forall not_a_get three_entries ->
   message_queue three_sent = message_queue two_clients ++ queue_puts three_entries).
Proof.
  apply (queue_is_consumed_from_the_front two_clients three_entries three_sent).
  vm_compute. reflexivity.
Defined.

Lemma received_grows ws s ls s' :
  run s ls = Some s' -> received ws s `prefix_of` received ws s'.
Proof.
  intros Hrun. destruct (run_sends_from_queue s ls s' Hrun) as (new & Hsent & _).
  unfold received. rewrite Hsent, omap_app. by apply prefix_app_r.
Qed.

Lemma step_after_leaving ws s l s' :
  well_formed s -> ws ∉ websocket_clients s -> step s l = Some s' ->
  received ws s' ++ in_flight ws s' `sublist_of` received ws s ++ in_flight ws s.
Proof.
  intros [Hc Hp] Hout Hstep. unfold received, in_flight.
  destruct l; unfold_step Hstep.
  - by injection Hstep as <-.
  - by injection Hstep as <-.
  - by injection Hstep as <-.
  - destruct (pc s) eqn:Hpc; try done.
    destruct (message_queue s) as [|data queue]; [done|].
    case_decide as Hen; [|done]. case_decide as Hne; injection Hstep as <-; simpl.
    + rewrite in_flight_next_send. rewrite decide_False; [done|].
      by rewrite (enumerates_elem _ _ _ Hen).
    + done.
  - destruct (pc s) as [|data [|w todo]|] eqn:Hpc; try done.
    injection Hstep as <-. simpl in *. destruct Hp as (Hnd & _ & _).
    apply NoDup_cons in Hnd as [Hw Hnd].
    rewrite in_flight_next_send, received_snoc.
    destruct (decide (w = ws)) as [->|Hneq].
    + rewrite (decide_True (P := ws ∈ ws :: todo)) by left.
      rewrite (decide_False (P := ws ∈ todo)) by done.
      by rewrite app_nil_r.
    + rewrite app_nil_r. apply sublist_app; [done|].
      destruct (decide (ws ∈ todo)) as [Ht|Ht].
      * by rewrite (decide_True (P := ws ∈ w :: todo)) by (by right).
      * rewrite (decide_False (P := ws ∈ w :: todo)); [done|].
        intros [?|?]%elem_of_cons; [congruence|done].
  - destruct (pc s) as [|data [|w todo]|] eqn:Hpc; try done.
    injection Hstep as <-. simpl in *. destruct Hp as (Hnd & _ & _).
    apply NoDup_cons in Hnd as [Hw Hnd].
    rewrite in_flight_next_send. apply sublist_app; [done|].
    destruct (decide (w = ws)) as [->|Hneq].
    + rewrite (decide_True (P := ws ∈ ws :: todo)) by left.
      rewrite (decide_False (P := ws ∈ todo)) by done.
      by apply sublist_cons.
    + destruct (decide (ws ∈ todo)) as [Ht|Ht].
      * by rewrite (decide_True (P := ws ∈ w :: todo)) by (by right).
      * rewrite (decide_False (P := ws ∈ w :: todo)); [done|].
        intros [?|?]%elem_of_cons; [congruence|done].
  - destruct (pc s) eqn:Hpc; try done; injection Hstep as <-; simpl; [done|].
    apply sublist_app; [done|]. case_decide; [|done]. by apply sublist_cons.
Qed.

Lemma run_after_leaving ws s ls s' :
  well_formed s -> (ws < accepted s)%nat -> ws ∉ websocket_clients s ->
  run s ls = Some s' ->
  received ws s' ++ in_flight ws s' `sublist_of` received ws s ++ in_flight ws s.
Proof.
  revert s. induction ls as [|l ls IH]; intros s Hwf Hacc Hout Hrun; simpl in Hrun.
  - by injection Hrun as <-.
  - destruct (step s l) as [s1|] eqn:Hstep; [|done].
    destruct (step_absent_stays s l s1 ws Hacc Hout Hstep) as [Hacc1 Hout1].
    etrans; [|by eapply step_after_leaving].
    apply IH; try done. by eapply step_well_formed.
Qed.

(** X18: once a websocket is out of [websocket_clients], because its handler
    discarded it or because a send to it raised, it is sent nothing more,
    but for the data of the pass in progress if that pass still has it to
    serve: it is in no later pass. *)
Theorem departed_client_is_sent_nothing_more ws s ls s' :
  well_formed s -> (ws < accepted s)%nat -> ws ∉ websocket_clients s ->
  run s ls = Some s' ->
  received ws s `prefix_of` received ws s' /\
  received ws s' `sublist_of` received ws s ++ in_flight ws s.
Proof.
  intros Hwf Hacc Hout Hrun. split; [by eapply received_grows|].
  etrans; [|by eapply run_after_leaving]. by apply sublist_inserts_r.
Qed.

Lemma departed_client_is_sent_nothing_more_witness :
  received 1 one_left `prefix_of` received 1 three_sent /\
  received 1 three_sent `sublist_of` received 1 one_left ++ in_flight 1 one_left.
Proof.
  apply (departed_client_is_sent_nothing_more 1 one_left
           [SendRaises; SendReturns; Get [0%nat]; SendReturns; Get [0%nat]; SendReturns]
           three_sent).
  - split; simpl.
    + intros ws Hin. apply elem_of_difference in Hin as [Hin _].
      apply elem_of_union in Hin as [Hin|Hin]; apply elem_of_singleton in Hin; lia.
    + repeat split; [|done|].
      * apply NoDup_cons. split; [|apply NoDup_singleton].
        by intros ?%list_elem_of_singleton.
      * intros ws [->|[->|?%elem_of_nil]%elem_of_cons]%elem_of_cons; [lia|lia|done].
  - simpl. lia.
  - simpl. intros [_ Hne]%elem_of_difference. apply Hne. by apply elem_of_singleton.
  - vm_compute. reflexivity.
Defined.

End BroadcasterMore.
